(** * kinisi: the Xdatcar parser ([kinisi/parser.py])

    A shallow embedding of [PymatgenParser] and [_get_structure_and_disp],
    followed by the properties of the displacement builder, the interval
    sampler and the mean-squared-displacement computation.

    Conventions of the embedding.
    - Python [int] is [Z]; [//] is [Z.div] (floor), [int(a / b)] on integers
      is [Z.quot] (truncation towards zero); both raise [ZeroDivisionError]
      on a zero divisor.
    - Array entries are rationals ([Q], compared with [==]): the arithmetic
      of the code is followed exactly.  The one non-finite value the code can
      produce from finite input, the [nan] of an average over an empty axis,
      is [None] in [val := option Q]; it propagates through [-], [+], [*]
      and further averages as numpy's [nan] does.
    - A numpy array of shape [site, time step, axis] is a list (sites) of
      lists (time steps) of [vec3].
    - Exceptions are the left summand of [result]. *)

From Stdlib Require Import String ZArith QArith Qround List Lia Bool Sorted.
From Stdlib Require Import Qfield Lqa.
Import ListNotations.

Local Open Scope Z_scope.

(** ** Exceptions *)

Inductive exn : Type :=
| IndexError
| ZeroDivisionError
| ValueError (msg : string).

Definition result (A : Type) : Type := (exn + A)%type.

Definition ret {A} (a : A) : result A := inr a.
Definition raise {A} (e : exn) : result A := inl e.
Definition bind {A B} (c : result A) (k : A -> result B) : result B :=
  match c with
  | inl e => inl e
  | inr a => k a
  end.

Notation "x <- c ;; k" := (bind c (fun x => k))
  (at level 61, c at next level, right associativity).

Definition raises {A} (c : result A) : Prop := exists e, c = inl e.
Definition returns {A} (c : result A) : Prop := exists a, c = inr a.

(** ** Integer primitives *)

(** [int(a / b)] for Python integers [a], [b]: true division is correctly
    rounded to binary64 and [int] truncates towards zero.  For the divisions
    of the code the truncated binary64 quotient is the truncated exact
    quotient: always for [1000 / b], and for [a / 200] while [a] is below
    2^52; beyond that range, and where Python raises [OverflowError] for a
    quotient outside binary64, the embedding does not follow the code. *)
Definition int_truediv (a b : Z) : result Z :=
  if b =? 0 then raise ZeroDivisionError else ret (Z.quot a b).

(** [a // b]. *)
Definition floordiv (a b : Z) : result Z :=
  if b =? 0 then raise ZeroDivisionError else ret (a / b).

(** Number of elements of [np.arange(start, stop, step)] on integers:
    [ceil((stop - start) / step)], clipped at zero. *)
Definition arange_len (start stop step : Z) : nat :=
  Z.to_nat (- ((start - stop) / step)).

(** [np.arange(start, stop, step)] on integers. *)
Definition arange (start stop step : Z) : list Z :=
  map (fun i => start + Z.of_nat i * step) (seq 0 (arange_len start stop step)).

(** ** The parser object *)

(** The attributes of [self] that the methods read. *)
Record parser : Type := mkParser {
  time_step : Z;
  step_skip : Z;
  indices : list nat
}.

Definition not_enough_data : exn :=
  ValueError "Not enough data to calculate diffusivity".

(** The two bounds of [smoothed_timesteps], lines 109 and 110. *)
Definition min_dt_of (self : parser) : result Z :=
  int_truediv 1000 (step_skip self * time_step self).

Definition max_dt_of (self : parser) (nsteps min_obs : Z) : result Z :=
  q <- floordiv (Z.of_nat (length (indices self)) * nsteps) min_obs ;;
  ret (Z.min q nsteps).

(** [PymatgenParser.smoothed_timesteps]. *)
Definition smoothed_timesteps (self : parser) (nsteps min_obs : Z)
  : result (list Z) :=
  min_dt <- min_dt_of self ;;
  max_dt <- max_dt_of self nsteps min_obs ;;
  if min_dt >=? max_dt then raise not_enough_data
  else
    w <- int_truediv (max_dt - min_dt) 200 ;;
    ret (arange min_dt max_dt (Z.max w 1)).

(** ** Exact values, with [nan] *)

Definition val : Type := option Q.

Definition lift2 (f : Q -> Q -> Q) (a b : val) : val :=
  match a, b with
  | Some x, Some y => Some (f x y)
  | _, _ => None
  end.

Definition vadd : val -> val -> val := lift2 Qplus.
Definition vsub : val -> val -> val := lift2 Qminus.
Definition vmul : val -> val -> val := lift2 Qmult.

(** [np.sum] of a one-dimensional slice. *)
Definition vsum (l : list val) : val := fold_right vadd (Some 0%Q) l.

(** The mean numpy computes along one axis: sum over count, [nan] for an
    empty slice (0.0 / 0 with a warning, no exception). *)
Definition mean (l : list val) : val :=
  match l with
  | [] => None
  | _ :: _ => lift2 Qdiv (vsum l) (Some (inject_Z (Z.of_nat (length l))))
  end.

(** ** Three-component vectors (the last array axis) and lattice matrices *)

Record vec3 (A : Type) : Type := V3 { c0 : A; c1 : A; c2 : A }.
Arguments V3 {A} _ _ _.
Arguments c0 {A} _.
Arguments c1 {A} _.
Arguments c2 {A} _.

Definition v3map {A B} (f : A -> B) (v : vec3 A) : vec3 B :=
  V3 (f (c0 v)) (f (c1 v)) (f (c2 v)).

Definition v3map2 {A B C} (f : A -> B -> C) (u : vec3 A) (v : vec3 B) : vec3 C :=
  V3 (f (c0 u) (c0 v)) (f (c1 u) (c1 v)) (f (c2 u) (c2 v)).

Definition v3all {A} (P : A -> Prop) (v : vec3 A) : Prop :=
  P (c0 v) /\ P (c1 v) /\ P (c2 v).

(** [np.sum(v, axis=2)] on one vector. *)
Definition v3sum (v : vec3 val) : val := vadd (vadd (c0 v) (c1 v)) (c2 v).

Definition qzero3 : vec3 Q := V3 0%Q 0%Q 0%Q.
Definition nan3 : vec3 val := V3 None None None.

(** A lattice matrix, as its three rows. *)
Definition mat3 : Type := vec3 (vec3 Q).

(** [np.dot(d, m)] for a vector [d] and a 3x3 matrix [m]. *)
Definition dot (d : vec3 Q) (m : mat3) : vec3 Q :=
  let col (p : vec3 Q -> Q) :=
    (c0 d * p (c0 m) + c1 d * p (c1 m) + c2 d * p (c2 m))%Q in
  V3 (col c0) (col c1) (col c2).

Definition vec3_eqb (u v : vec3 Q) : bool :=
  Qeq_bool (c0 u) (c0 v) && Qeq_bool (c1 u) (c1 v) && Qeq_bool (c2 u) (c2 v).

(** [np.array_equal] on two lattice matrices. *)
Definition array_equal (m1 m2 : mat3) : bool :=
  vec3_eqb (c0 m1) (c0 m2) && vec3_eqb (c1 m1) (c1 m2) && vec3_eqb (c2 m1) (c2 m2).

(** ** Structures *)

Record site : Type := mkSite { symbol : string; frac_coords : vec3 Q }.

Record structure : Type := mkStructure { sites : list site; lattice : mat3 }.

(** ** [_get_structure_and_disp] *)

(** [np.round]: round half to even. *)
Definition round_half_even (q : Q) : Z :=
  let f := Qfloor q in
  match (q - inject_Z f ?= 1 # 2)%Q with
  | Lt => f
  | Gt => f + 1
  | Eq => if Z.even f then f else f + 1
  end.

(** One entry of [d_coords - np.round(d_coords)], line 179. *)
Definition wrap (d : Q) : Q := (d - inject_Z (round_half_even d))%Q.

Definition q3sub : vec3 Q -> vec3 Q -> vec3 Q := v3map2 Qminus.
Definition q3add : vec3 Q -> vec3 Q -> vec3 Q := v3map2 Qplus.

(** [np.concatenate(coords, axis=1)] of per-frame arrays of shape
    [site, 1, axis]: entry [i][t] is site [i] of frame [t].  All frames must
    have the number of sites of the first one. *)
Definition concatenate_axis1 (coords : list (list (vec3 Q)))
  : result (list (list (vec3 Q))) :=
  match coords with
  | [] => raise (ValueError "need at least one array to concatenate")
  | f0 :: _ =>
      if forallb (fun f => Nat.eqb (length f) (length f0)) coords
      then ret (map (fun i => map (fun f => nth i f qzero3) coords)
                    (seq 0 (length f0)))
      else raise (ValueError "all the input array dimensions except for the concatenation axis must match exactly")
  end.

(** [row[1:] - row[:-1]] along the time axis. *)
Definition diff_axis1 (row : list (vec3 Q)) : list (vec3 Q) :=
  map (fun p => q3sub (fst p) (snd p)) (combine (tl row) (removelast row)).

(** [np.cumsum] along the time axis. *)
Fixpoint cumsum_from (acc : vec3 Q) (l : list (vec3 Q)) : list (vec3 Q) :=
  match l with
  | [] => []
  | x :: r => let a := q3add acc x in a :: cumsum_from a r
  end.

Definition cumsum (l : list (vec3 Q)) : list (vec3 Q) :=
  match l with
  | [] => []
  | x :: r => x :: cumsum_from x r
  end.

(** Lines 168-179: the wrapped fractional deltas [d_coords], together with
    the lattice list after [latt.insert(0, latt[0])]. *)
Definition wrapped_deltas (structures : list structure)
  : result (list (list (vec3 Q)) * list mat3) :=
  let coords := map (fun s => map frac_coords (sites s)) structures in
  let latt := map lattice structures in
  match coords, latt with
  | f0 :: _, l0 :: _ =>
      arr <- concatenate_axis1 (f0 :: coords) ;;
      ret (map (fun row => map (v3map wrap) (diff_axis1 row)) arr, l0 :: latt)
  | _, _ => raise IndexError
  end.

(** Line 180: the unwrapped fractional displacement [f_disp]. *)
Definition frac_disp (structures : list structure)
  : result (list (list (vec3 Q)) * list mat3) :=
  dl <- wrapped_deltas structures ;;
  ret (map cumsum (fst dl), snd dl).

(** Line 187: the constant-lattice test on the extended lattice list. *)
Definition constant_lattice (latt : list mat3) : bool :=
  match latt with
  | [] => false
  | l0 :: _ => array_equal l0 (last latt l0)
  end.

(** [_get_structure_and_disp].  The lattice list rebuilt at lines 187-190 is
    a local that is not returned. *)
Definition get_structure_and_disp (structures : list structure)
  : result (structure * list (list (vec3 Q))) :=
  match structures with
  | [] => raise IndexError
  | s0 :: _ =>
      fl <- frac_disp structures ;;
      let '(f_disp, latt) := fl in
      let disp :=
        map (fun i => map (fun dm => dot (fst dm) (snd dm)) (combine i (tl latt)))
            f_disp in
      let latt' := if constant_lattice latt then firstn 1 latt else latt in
      ret (s0, disp)
  end.

(** ** [PymatgenParser.correct_for_drift] *)

Fixpoint mapM {A B} (f : A -> result B) (l : list A) : result (list B) :=
  match l with
  | [] => ret []
  | x :: r => y <- f x ;; ys <- mapM f r ;; ret (y :: ys)
  end.

(** Integer-array indexing along the first axis, [a[idx]]. *)
Definition take_rows {A} (a : list A) (idx : list nat) : result (list A) :=
  mapM (fun i => match nth_error a i with
                 | Some r => ret r
                 | None => raise IndexError
                 end) idx.

(** The loop of lines 82-86, from site number [i] on: the mobile indices
    appended to [self.indices] and the framework indices. *)
Fixpoint partition_sites (specie : string) (i : nat) (ss : list site)
         (mobile framework : list nat) : list nat * list nat :=
  match ss with
  | [] => (mobile, framework)
  | s :: r =>
      if String.eqb (symbol s) specie
      then partition_sites specie (S i) r (mobile ++ [i]) framework
      else partition_sites specie (S i) r mobile (framework ++ [i])
  end.

(** [np.average(a, axis=0)] for [a] of shape [rows, nsteps, 3].  numpy
    divides [a.size] by the size of the result, so a result without
    entries raises [ZeroDivisionError]. *)
Definition average_axis0 (nsteps : nat) (a : list (list (vec3 val)))
  : result (list (vec3 val)) :=
  if Nat.eqb nsteps 0 then raise ZeroDivisionError
  else ret (map (fun t =>
                   let col (p : vec3 val -> val) :=
                     mean (map (fun row => p (nth t row nan3)) a) in
                   V3 (col c0) (col c1) (col c2))
                (seq 0 nsteps)).

(** [disp - avg[None, :, :]]. *)
Definition sub_axis0 (disp : list (list (vec3 val))) (avg : list (vec3 val))
  : list (list (vec3 val)) :=
  map (fun row => map (fun p => v3map2 vsub (fst p) (snd p)) (combine row avg))
      disp.

Definition inject (disp : list (list (vec3 Q))) : list (list (vec3 val)) :=
  map (map (v3map (@Some Q))) disp.

(** [correct_for_drift]: the updated object and the corrected array.  An
    array built from structures without sites is one-dimensional, and the
    indexing [[None, :, :]] of its scalar average raises [IndexError]. *)
Definition correct_for_drift (self : parser) (st : structure)
           (disp : list (list (vec3 Q))) (specie : string)
  : result (parser * list (list (vec3 val))) :=
  let '(mobile, framework_indices) :=
    partition_sites specie 0 (sites st) (indices self) [] in
  let self' := mkParser (time_step self) (step_skip self) mobile in
  framework_disp <- take_rows (inject disp) framework_indices ;;
  match disp with
  | [] => raise IndexError
  | r0 :: _ =>
      avg <- average_axis0 (length r0) framework_disp ;;
      ret (self', sub_axis0 (inject disp) avg)
  end.

(** ** [PymatgenParser.get_disps] *)

(** The start of [a[t:]] and the stop of [a[:s]] for a Python integer. *)
Definition slice_bound (len : nat) (t : Z) : nat :=
  if t <? 0 then Z.to_nat (Z.max (Z.of_nat len + t) 0)
  else Nat.min (Z.to_nat t) len.

Definition slice_from {A} (t : Z) (l : list A) : list A :=
  skipn (slice_bound (length l) t) l.

Definition slice_to {A} (s : Z) (l : list A) : list A :=
  firstn (slice_bound (length l) s) l.

Definition broadcast_error : exn :=
  ValueError "operands could not be broadcast together".

(** [np.subtract] along the time axis of one site, with numpy's
    broadcasting: equal lengths, or one of the two of length one. *)
Definition subtract_axis1 (a b : list (vec3 val)) : result (list (vec3 val)) :=
  let sub := v3map2 vsub in
  if Nat.eqb (length a) (length b)
  then ret (map (fun p => sub (fst p) (snd p)) (combine a b))
  else match a, b with
       | [x], _ => ret (map (fun y => sub x y) b)
       | _, [y] => ret (map (fun x => sub x y) a)
       | _, _ => raise broadcast_error
       end.

Definition sq3 (v : vec3 val) : vec3 val := v3map2 vmul v v.

(** [np.average(a, axis=1)] for [a] of shape [rows, m]; as for axis 0, a
    result without entries raises [ZeroDivisionError]. *)
Definition average_axis1 (a : list (list val)) : result (list val) :=
  match a with
  | [] => raise ZeroDivisionError
  | _ :: _ => ret (map mean a)
  end.

(** What one iteration of the loop of lines 140-149 computes for
    [timestep]: [msd[i]], the entry appended to [sq_disp_store] and the
    entry appended to [disp_store].  The array is three-dimensional with at
    least one site, as [correct_for_drift] returns it. *)
Definition get_disps_step (self : parser)
           (drift_corrected : list (list (vec3 val))) (timestep : Z)
  : result (val * list (list val) * list (list val)) :=
  disp <- mapM (fun row => subtract_axis1 (slice_from timestep row)
                                          (slice_to (- timestep) row))
               drift_corrected ;;
  let sq_disp := map (map sq3) disp in
  d_sel <- take_rows (map (map v3sum) disp) (indices self) ;;
  sq_sel <- take_rows (map (map v3sum) sq_disp) (indices self) ;;
  sq_disp_ions <- average_axis1 (map (map v3sum) sq_disp) ;;
  ions_sel <- take_rows sq_disp_ions (indices self) ;;
  ret (mean ions_sel, sq_sel, d_sel).

Record disps : Type := mkDisps {
  delta_t : list Z;
  msd : list val;
  sq_disp_store : list (list (list val));
  disp_store : list (list (list val))
}.

(** A product of 64-bit integers as numpy keeps it: reduced to the signed
    64-bit range, without any exception. *)
Definition wrap_int64 (z : Z) : Z := (z + 2 ^ 63) mod 2 ^ 64 - 2 ^ 63.

(** [get_disps]: every iteration writes its own slot of [msd] and appends
    to the two stores.  In line 132 [timesteps] is the int64 array of
    [np.arange], multiplied by [time_step] and then by [step_skip] (Python
    integers within the int64 range): both products wrap. *)
Definition get_disps (self : parser) (timesteps : list Z)
           (drift_corrected : list (list (vec3 val))) : result disps :=
  let dt := map (fun t => wrap_int64 (wrap_int64 (t * time_step self)
                                      * step_skip self))
                timesteps in
  rs <- mapM (get_disps_step self drift_corrected) timesteps ;;
  ret (mkDisps dt
               (map (fun r => fst (fst r)) rs)
               (map (fun r => snd (fst r)) rs)
               (map snd rs)).

(** ** [PymatgenParser.__init__] *)

(** [a.shape[1]] of an array with at least one site. *)
Definition shape1 {A} (a : list (list A)) : nat :=
  match a with
  | [] => 0
  | r :: _ => length r
  end.

Definition init (structures : list structure) (specie : string)
           (time_step step_skip min_obs : Z) : result (parser * disps) :=
  let self := mkParser time_step step_skip [] in
  sd <- get_structure_and_disp structures ;;
  sc <- correct_for_drift self (fst sd) (snd sd) specie ;;
  let '(self, drift_corrected) := sc in
  let nsteps := Z.of_nat (shape1 drift_corrected) in
  timesteps <- smoothed_timesteps self nsteps min_obs ;;
  r <- get_disps self timesteps drift_corrected ;;
  ret (self, r).

(** ** Notions used in the statements *)

Definition q3eq (u v : vec3 Q) : Prop :=
  (c0 u == c0 v /\ c1 u == c1 v /\ c2 u == c2 v)%Q.

(** A finite value equal to zero. *)
Definition is_zero (v : val) : Prop := exists q, v = Some q /\ (q == 0)%Q.

(** Sum and count of a list of finite values. *)
Definition qsum (l : list Q) : Q := fold_right Qplus 0%Q l.

Definition qcount {A} (l : list A) : Q := inject_Z (Z.of_nat (length l)).

(** An array of shape [n, nsteps, 3]. *)
Definition has_shape {A} (n nsteps : nat) (a : list (list A)) : Prop :=
  length a = n /\ Forall (fun row => length row = nsteps) a.

(** The framework (non-mobile) site numbers of a structure. *)
Definition framework_of (specie : string) (st : structure) : list nat :=
  snd (partition_sites specie 0 (sites st) [] []).

(** The mobile site numbers of a structure. *)
Definition mobile_of (specie : string) (st : structure) : list nat :=
  fst (partition_sites specie 0 (sites st) [] []).

(** A trajectory whose frames all have [n] sites. *)
Definition frames_have (n : nat) (structures : list structure) : Prop :=
  Forall (fun s => length (sites s) = n) structures.

(** The squared displacement of site [a] between frame [f] and frame
    [f + dt], summed over the three axes. *)
Definition sq_displacement (dc : list (list (vec3 val))) (a f dt : nat) : val :=
  let row := nth a dc [] in
  v3sum (sq3 (v3map2 vsub (nth (f + dt) row nan3) (nth f row nan3))).

(** The time origins of an interval of [dt] frames in a run of [nsteps]. *)
Definition origins (nsteps dt : nat) : list nat := seq 0 (nsteps - dt).

(** The mean over the mobile sites of the mean over the time origins of
    the squared displacement. *)
Definition mean_sq_displacement (dc : list (list (vec3 val)))
           (mobile : list nat) (nsteps dt : nat) : val :=
  mean (map (fun a => mean (map (fun f => sq_displacement dc a f dt)
                                (origins nsteps dt)))
            mobile).

(** ** Example trajectories *)

(** A cubic lattice of edge [a]. *)
Definition cubic (a : Q) : mat3 :=
  V3 (V3 a 0 0)%Q (V3 0 a 0)%Q (V3 0 0 a)%Q.

(** A site of the given species on the first axis. *)
Definition site_at (sym : string) (x : Q) : site := mkSite sym (V3 x 0 0)%Q.

(** One lithium moving from 1/4 to 3/4 between two frames. *)
Definition half_step_run : list structure :=
  [mkStructure [site_at "Li" (1 # 4)] (cubic 1);
   mkStructure [site_at "Li" (3 # 4)] (cubic 1)].

(** One lithium moving by 1/4; the cell is doubled in the middle frame
    only, so the first and the last lattice are equal. *)
Definition breathing_run : list structure :=
  [mkStructure [site_at "Li" 0] (cubic 1);
   mkStructure [site_at "Li" (1 # 4)] (cubic 2);
   mkStructure [site_at "Li" (1 # 4)] (cubic 1)].

(** A single frame with one lithium and one oxygen. *)
Definition single_frame_run : list structure :=
  [mkStructure [site_at "Li" (1 # 4); site_at "O" 0] (cubic 1)].

(** Two frames with one lithium, moving by 1/10, and one oxygen at rest. *)
Definition two_frame_run : list structure :=
  [mkStructure [site_at "Li" (1 # 4); site_at "O" 0] (cubic 1);
   mkStructure [site_at "Li" (7 # 20); site_at "O" 0] (cubic 1)].

(** A lithium and two oxygens, and a displacement array for them over two
    frames: the lithium moves by 1/10, the oxygens by 1/10 and 3/10. *)
Definition drifting_structure : structure :=
  mkStructure [site_at "Li" 0; site_at "O" (1 # 2); site_at "O" (1 # 5)]
              (cubic 1).

Definition drifting_disp : list (list (vec3 Q)) :=
  [[V3 0 0 0; V3 (1 # 10) 0 0];
   [V3 0 0 0; V3 (1 # 10) 0 0];
   [V3 0 0 0; V3 (3 # 10) 0 0]]%Q.

(** The positions held by [walk_corrected]. *)
Definition walk_positions (a f : nat) : vec3 Q :=
  nth f [V3 0 0 0; V3 1 0 0; V3 3 0 0]%Q qzero3.

(** The same array with every site moved by 1/2 along the first axis at
    every frame. *)
Definition drifting_disp_shifted : list (list (vec3 Q)) :=
  [[V3 (1 # 2) 0 0; V3 (3 # 5) 0 0];
   [V3 (1 # 2) 0 0; V3 (3 # 5) 0 0];
   [V3 (1 # 2) 0 0; V3 (4 # 5) 0 0]]%Q.

(** Two lithiums alone, and a displacement array for them over two frames. *)
Definition lithium_structure : structure :=
  mkStructure [site_at "Li" 0; site_at "Li" (1 # 2)] (cubic 1).

Definition lithium_disp : list (list (vec3 Q)) :=
  [[V3 0 0 0; V3 (1 # 10) 0 0];
   [V3 0 0 0; V3 (3 # 10) 0 0]]%Q.

(** A corrected array of one site over three frames, at 0, 1 and 3 on the
    first axis. *)
Definition walk_corrected : list (list (vec3 val)) :=
  [[V3 (Some 0) (Some 0) (Some 0);
    V3 (Some 1) (Some 0) (Some 0);
    V3 (Some 3) (Some 0) (Some 0)]]%Q.

(** The squared distance of two positions: the squared differences of the
    three coordinates, added up. *)
Definition sq_dist (u v : vec3 Q) : Q :=
  ((c0 u - c0 v) * (c0 u - c0 v)
   + (c1 u - c1 v) * (c1 u - c1 v)
   + (c2 u - c2 v) * (c2 u - c2 v))%Q.

(** The mean of a non-empty list of finite values. *)
Definition qmean (l : list Q) : Q := (qsum l / qcount l)%Q.

(** The entry of an array that holds the finite vector [u]. *)
Definition some3 (u : vec3 Q) : vec3 val :=
  V3 (Some (c0 u)) (Some (c1 u)) (Some (c2 u)).

(** An array without [nan]. *)
Definition finite3 (v : vec3 val) : Prop :=
  exists x y z, v = V3 (Some x) (Some y) (Some z).

Definition finite_array (a : list (list (vec3 val))) : Prop :=
  Forall (Forall finite3) a.

(** Equality of two values: both [nan], or both finite and equal. *)
Definition val_eq (a b : val) : Prop :=
  match a, b with
  | Some x, Some y => (x == y)%Q
  | None, None => True
  | _, _ => False
  end.

Definition v3_val_eq (u v : vec3 val) : Prop :=
  val_eq (c0 u) (c0 v) /\ val_eq (c1 u) (c1 v) /\ val_eq (c2 u) (c2 v).

(** The three projections of the last axis. *)
Definition is_axis (p : forall A, vec3 A -> A) : Prop :=
  p = @c0 \/ p = @c1 \/ p = @c2.

(** A corrected array of one site that stays at 1 on the first axis over
    three frames. *)
Definition still_corrected : list (list (vec3 val)) :=
  [[V3 (Some 1) (Some 0) (Some 0);
    V3 (Some 1) (Some 0) (Some 0);
    V3 (Some 1) (Some 0) (Some 0)]]%Q.

(** Twelve frames of one lithium and one oxygen at rest. *)
Definition resting_frame : structure :=
  mkStructure [site_at "Li" (1 # 4); site_at "O" 0] (cubic 1).

Definition resting_run : list structure := repeat resting_frame 12.

(** The fractional coordinates of site [i] in frame [s]. *)
Definition position (structures : list structure) (i s : nat) : vec3 Q :=
  nth i (map frac_coords (sites (nth s structures (mkStructure [] (cubic 0)))))
      qzero3.

(** The drift-corrected position of site [a] at frame [f]: on each axis the
    displacement minus the sum over the framework sites [fw] divided by
    their number. *)
Definition corrected_position (disp : list (list (vec3 Q))) (fw : list nat)
           (a f : nat) : vec3 Q :=
  let comp (p : vec3 Q -> Q) :=
    (p (nth f (nth a disp []) qzero3)
     - qsum (map (fun j => p (nth f (nth j disp []) qzero3)) fw) / qcount fw)%Q
  in V3 (comp c0) (comp c1) (comp c2).

(** * Properties *)

(** ** The result monad *)

Lemma raises_inl {A} (e : exn) : raises (@inl exn A e).
Proof. now exists e. Qed.

Lemma returns_inr {A} (a : A) : returns (@inr exn A a).
Proof. now exists a. Qed.

Lemma not_raises_inr {A} (a : A) : ~ raises (@inr exn A a).
Proof. intros [e H]; discriminate. Qed.

Lemma not_returns_inl {A} (e : exn) : ~ returns (@inl exn A e).
Proof. intros [a H]; discriminate. Qed.

(** ** [np.arange] with a positive step *)

Section Arange.
Variables start stop step : Z.
Hypothesis step_pos : 0 < step.

Let n : Z := - ((start - stop) / step).

Lemma arange_count_bounds :
  step * (n - 1) < stop - start <= step * n.
Proof.
  subst n.
  pose proof (Z.mul_div_le (start - stop) step step_pos).
  pose proof (Z.mul_succ_div_gt (start - stop) step step_pos).
  lia.
Qed.

Lemma arange_length : length (arange start stop step) = Z.to_nat n.
Proof. unfold arange, arange_len. now rewrite length_map, length_seq. Qed.

Lemma arange_nth (i : nat) :
  (i < length (arange start stop step))%nat ->
  nth i (arange start stop step) 0 = start + Z.of_nat i * step.
Proof.
  intros Hi. rewrite arange_length in Hi.
  unfold arange, arange_len. fold n.
  rewrite nth_indep with (d' := start + Z.of_nat 0 * step)
    by (rewrite length_map, length_seq; assumption).
  change (start + Z.of_nat 0 * step)
    with ((fun i => start + Z.of_nat i * step) 0%nat) at 1.
  rewrite map_nth, seq_nth by assumption. reflexivity.
Qed.

Lemma arange_In (d : Z) :
  In d (arange start stop step) <->
  start <= d < stop /\ (d - start) mod step = 0.
Proof.
  pose proof arange_count_bounds as Hn.
  unfold arange, arange_len. fold n. rewrite in_map_iff. split.
  - intros (i & <- & Hi). apply in_seq in Hi.
    replace (start + Z.of_nat i * step - start) with (Z.of_nat i * step) by lia.
    rewrite Z.mod_mul by lia. split; [|reflexivity].
    assert (Z.of_nat i <= n - 1) by lia.
    assert (Z.of_nat i * step <= (n - 1) * step) by (apply Z.mul_le_mono_nonneg_r; lia).
    lia.
  - intros ((Hlo & Hhi) & Hmod).
    apply Z.mod_divide in Hmod; [|lia]. destruct Hmod as [j Hj].
    assert (0 <= j) by nia.
    exists (Z.to_nat j). split; [rewrite Z2Nat.id by lia; lia|].
    apply in_seq. split; [lia|]. simpl.
    assert (j < n) by nia. lia.
Qed.

Lemma arange_sorted : StronglySorted Z.lt (arange start stop step).
Proof.
  unfold arange. generalize (arange_len start stop step) as m.
  generalize 0%nat as k. intros k m. revert k.
  induction m as [|m IH]; intros k; simpl; constructor.
  - apply IH.
  - apply Forall_forall. intros d Hd. apply in_map_iff in Hd.
    destruct Hd as (i & <- & Hi). apply in_seq in Hi. nia.
Qed.

Lemma arange_head : start < stop -> exists r, arange start stop step = start :: r.
Proof.
  intros Hlt. pose proof arange_count_bounds as Hn.
  unfold arange, arange_len. fold n.
  assert (0 < n) by nia.
  destruct (Z.to_nat n) as [|m] eqn:E; [lia|].
  simpl. eexists. f_equal. lia.
Qed.
End Arange.

(** ** The interval sampler *)

Section IntervalSampler.
Variable self : parser.
Variables nsteps min_obs : Z.

Let k : Z := step_skip self * time_step self.
Let min_dt : Z := Z.quot 1000 k.
Let max_dt : Z :=
  Z.min (Z.of_nat (length (indices self)) * nsteps / min_obs) nsteps.
Let step : Z := Z.max (Z.quot (max_dt - min_dt) 200) 1.

(** With both divisors non-zero the sampler is its guard followed by
    [np.arange]. *)
Lemma smoothed_timesteps_defined :
  k <> 0 -> min_obs <> 0 ->
  smoothed_timesteps self nsteps min_obs =
  if min_dt >=? max_dt then inl not_enough_data
  else inr (arange min_dt max_dt step).
Proof.
  intros Hk Hm. unfold smoothed_timesteps, min_dt_of, max_dt_of,
    int_truediv, floordiv. fold k.
  destruct (Z.eqb_spec k 0) as [|_]; [contradiction|].
  destruct (Z.eqb_spec min_obs 0) as [|_]; [contradiction|].
  simpl. reflexivity.
Qed.

(** A zero divisor is reported before the guard is reached. *)
Lemma smoothed_timesteps_zero_division :
  k = 0 \/ min_obs = 0 ->
  smoothed_timesteps self nsteps min_obs = inl ZeroDivisionError.
Proof.
  unfold smoothed_timesteps, min_dt_of, max_dt_of, int_truediv, floordiv.
  fold k. intros [Hk | Hm].
  - rewrite Hk. reflexivity.
  - destruct (Z.eqb_spec k 0); [reflexivity|]. rewrite Hm. reflexivity.
Qed.

(** A returned list comes from the second branch of the guard. *)
Lemma smoothed_timesteps_inr (l : list Z) :
  smoothed_timesteps self nsteps min_obs = inr l ->
  k <> 0 /\ min_obs <> 0 /\ min_dt < max_dt /\ l = arange min_dt max_dt step.
Proof.
  intros H.
  destruct (Z.eq_dec k 0) as [Hk | Hk];
    [rewrite smoothed_timesteps_zero_division in H by auto; discriminate|].
  destruct (Z.eq_dec min_obs 0) as [Hm | Hm];
    [rewrite smoothed_timesteps_zero_division in H by auto; discriminate|].
  rewrite smoothed_timesteps_defined in H by assumption.
  destruct (Z.geb_spec min_dt max_dt); [discriminate|].
  injection H as <-. auto.
Qed.

Lemma step_pos : 0 < step.
Proof. subst step. lia. Qed.

Lemma max_dt_le_nsteps : max_dt <= nsteps.
Proof. subst max_dt. lia. Qed.

Lemma min_dt_pos : 0 < k <= 1000 -> 0 < min_dt.
Proof.
  intros Hk. subst min_dt. rewrite Z.quot_div_nonneg by lia.
  apply Z.div_str_pos. lia.
Qed.

Lemma min_dt_zero : 1000 < k -> min_dt = 0.
Proof. intros Hk. subst min_dt. apply Z.quot_small. lia. Qed.

(** For a positive time unit, [min_dt] is the largest interval that spans
    at most 1000 time units. *)
Lemma min_dt_span : 0 < k -> min_dt * k <= 1000 < (min_dt + 1) * k.
Proof.
  intros Hk. subst min_dt. rewrite Z.quot_div_nonneg by lia.
  pose proof (Z.mul_div_le 1000 k Hk).
  pose proof (Z.mul_succ_div_gt 1000 k Hk). lia.
Qed.

Lemma min_dt_span_exact : 0 < k -> (k | 1000) -> min_dt * k = 1000.
Proof.
  intros Hk [q Hq]. subst min_dt. rewrite Z.quot_div_nonneg by lia.
  rewrite Hq, Z.div_mul by lia. reflexivity.
Qed.

(** Number of sampled intervals. *)
Lemma arange_count :
  min_dt < max_dt ->
  (length (arange min_dt max_dt step) <= 399)%nat /\
  (200 <= max_dt - min_dt ->
   (200 <= length (arange min_dt max_dt step))%nat) /\
  (max_dt - min_dt < 200 ->
   Z.of_nat (length (arange min_dt max_dt step)) = max_dt - min_dt).
Proof.
  intros Hlt. pose proof step_pos as Hs.
  pose proof (arange_count_bounds min_dt max_dt step Hs) as Hn.
  rewrite (arange_length min_dt max_dt step).
  set (n := - ((min_dt - max_dt) / step)) in *.
  assert (Hw : Z.quot (max_dt - min_dt) 200 = (max_dt - min_dt) / 200)
    by (apply Z.quot_div_nonneg; lia).
  pose proof (Z.mul_div_le (max_dt - min_dt) 200 ltac:(lia)).
  pose proof (Z.mul_succ_div_gt (max_dt - min_dt) 200 ltac:(lia)).
  assert (Hstep : step = Z.max ((max_dt - min_dt) / 200) 1)
    by (subst step; now rewrite Hw).
  repeat split.
  - assert (n <= 399) by nia. lia.
  - intros HD. assert (200 <= n) by nia. lia.
  - intros HD. assert (step = 1) by (rewrite Hstep, Z.div_small; lia).
    assert (n = max_dt - min_dt) by nia. lia.
Qed.

(** C1.  Where the two bounds are defined (no zero divisor), the sampler
    raises if and only if [min_dt >= max_dt]; the exception is then the
    "Not enough data" [ValueError] of line 112, and for [min_dt < max_dt]
    the sampler returns. *)
Theorem smoothed_timesteps_raises_iff :
  k <> 0 -> min_obs <> 0 ->
  (raises (smoothed_timesteps self nsteps min_obs) <-> min_dt >= max_dt) /\
  (min_dt >= max_dt ->
   smoothed_timesteps self nsteps min_obs = inl not_enough_data) /\
  (min_dt < max_dt -> returns (smoothed_timesteps self nsteps min_obs)).
Proof.
  intros Hk Hm. rewrite smoothed_timesteps_defined by assumption.
  destruct (Z.geb_spec min_dt max_dt) as [Hge | Hlt]; repeat split.
  - intros _. lia.
  - intros _. apply raises_inl.
  - lia.
  - intros H. now apply not_raises_inr in H.
  - lia.
  - lia.
  - intros _. apply returns_inr.
Qed.

(** What holds of every returned interval set: it is strictly increasing and
    lies in [[min_dt, max_dt)] with [max_dt <= nsteps]; its members are
    positive when the time unit is at most 1000, and it starts at 0 when the
    time unit exceeds 1000. *)
Lemma interval_set_sorted_bounded (l : list Z) :
  smoothed_timesteps self nsteps min_obs = inr l ->
  StronglySorted Z.lt l /\
  Forall (fun d => min_dt <= d < max_dt) l /\
  max_dt <= nsteps /\
  (0 < k <= 1000 -> Forall (fun d => 0 < d <= nsteps) l) /\
  (1000 < k -> exists r, l = 0 :: r).
Proof.
  intros H. apply smoothed_timesteps_inr in H.
  destruct H as (Hk & Hm & Hlt & ->).
  pose proof step_pos as Hs. pose proof max_dt_le_nsteps as Hmax.
  assert (Hin : Forall (fun d => min_dt <= d < max_dt)
                       (arange min_dt max_dt step)).
  { apply Forall_forall. intros d Hd.
    now apply (arange_In min_dt max_dt step Hs) in Hd. }
  repeat split.
  - now apply arange_sorted.
  - exact Hin.
  - exact Hmax.
  - intros Hk'. pose proof (min_dt_pos Hk').
    eapply Forall_impl; [|exact Hin]. simpl. intros d Hd. lia.
  - intros Hk'. rewrite (min_dt_zero Hk') in *.
    now apply arange_head.
Qed.

(** C4, as the code has it.  For a time unit from 1 to 1000 every sampled
    interval is positive and, extended by one frame, spans more than 1000
    time units; it spans at least 1000 itself when the time unit divides
    1000. *)
Theorem interval_set_real_time (l : list Z) :
  smoothed_timesteps self nsteps min_obs = inr l ->
  0 < k <= 1000 ->
  Forall (fun d => 0 < d /\
                   1000 < (d + 1) * time_step self * step_skip self) l /\
  ((k | 1000) ->
   Forall (fun d => d * time_step self * step_skip self >= 1000) l).
Proof.
  intros H Hk. apply smoothed_timesteps_inr in H.
  destruct H as (_ & _ & _ & ->).
  pose proof step_pos as Hs. pose proof (min_dt_pos Hk) as Hpos.
  assert (Hk0 : 0 < k) by lia. pose proof (min_dt_span Hk0) as Hspan.
  split; [|intros Hdiv; pose proof (min_dt_span_exact Hk0 Hdiv) as Hex];
    apply Forall_forall; intros d Hd;
    apply (arange_In min_dt max_dt step Hs) in Hd;
    destruct Hd as [[Hlo _] _]; subst k; [split|]; nia.
Qed.

(** C5, as the code has it.  For a span [max_dt - min_dt] below 2^52, where
    the quotient by 200 and the length of [np.arange], both computed in
    binary64, are exact, a returned interval set is exactly the arithmetic
    progression from [min_dt] with difference
    [max(1, int((max_dt - min_dt) / 200))] below [max_dt]; it has at most
    399 members, and at least 200 once [max_dt - min_dt >= 200]. *)
Theorem interval_set_progression (l : list Z) :
  smoothed_timesteps self nsteps min_obs = inr l ->
  max_dt - min_dt < 2 ^ 52 ->
  (forall d, In d l <->
             min_dt <= d < max_dt /\ (d - min_dt) mod step = 0) /\
  (forall i, (i < length l)%nat -> nth i l 0 = min_dt + Z.of_nat i * step) /\
  (length l <= 399)%nat /\
  (200 <= max_dt - min_dt -> (200 <= length l)%nat).
Proof.
  intros H _. apply smoothed_timesteps_inr in H.
  destruct H as (_ & _ & Hlt & ->).
  pose proof step_pos as Hs.
  destruct (arange_count Hlt) as (Hub & Hlb & _).
  split; [|split; [|split]].
  - intros d. now apply arange_In.
  - intros i Hi. now apply arange_nth.
  - exact Hub.
  - exact Hlb.
Qed.
End IntervalSampler.

Lemma smoothed_timesteps_raises_iff_witness :
  1 * 1 <> 0 /\ 5 <> 0 /\
  smoothed_timesteps (mkParser 1 1 [0%nat]) 100 5 = inl not_enough_data.
Proof.
  split; [lia|]. split; [lia|].
  apply (smoothed_timesteps_raises_iff (mkParser 1 1 [0%nat]) 100 5);
    [cbn; lia | lia | vm_compute; discriminate].
Defined.

(** C3.  The sampler at a time unit of 2000 (time step 2, one frame kept
    in 1000), ten frames, one mobile site and [min_obs = 1]: [min_dt] is
    [int(1000 / 2000) = 0], the guard of line 111 lets it pass, and the
    interval 0 is sampled, which is not a positive interval. *)
Theorem interval_zero_sampled :
  smoothed_timesteps (mkParser 2 1000 [0%nat]) 10 1
  = inr [0; 1; 2; 3; 4; 5; 6; 7; 8; 9] /\
  ~ Forall (fun d => 0 < d <= 10) [0; 1; 2; 3; 4; 5; 6; 7; 8; 9].
Proof.
  split; [reflexivity|]. intros H. inversion H; subst. lia.
Qed.

Example interval_set_sorted_bounded_example :
  smoothed_timesteps (mkParser 2 50 [0%nat]) 13 1 = inr [10; 11; 12] /\
  Forall (fun d => 0 < d <= 13) [10; 11; 12].
Proof.
  split; [reflexivity|].
  apply (interval_set_sorted_bounded (mkParser 2 50 [0%nat]) 13 1 [10; 11; 12]
           eq_refl).
  simpl. lia.
Qed.

(** C4 as stated fails: with a time unit of 3 the first interval, 333 frames,
    spans 999 time units. *)
Lemma interval_set_real_time_counterexample :
  smoothed_timesteps (mkParser 3 1 [0%nat]) 336 1 = inr [333; 334; 335] /\
  ~ Forall (fun d => d * 3 * 1 >= 1000) [333; 334; 335].
Proof.
  split; [reflexivity|]. intros H. inversion H; subst. lia.
Qed.

Lemma interval_set_real_time_witness :
  smoothed_timesteps (mkParser 2 50 [0%nat]) 13 1 = inr [10; 11; 12] /\
  0 < 50 * 2 <= 1000 /\
  Forall (fun d => 0 < d /\ 1000 < (d + 1) * 2 * 50) [10; 11; 12].
Proof.
  split; [reflexivity|]. split; [lia|].
  apply (interval_set_real_time (mkParser 2 50 [0%nat]) 13 1 [10; 11; 12]
           eq_refl).
  simpl. lia.
Defined.

(** C5 as stated fails in its count: for [max_dt - min_dt = 399] the step
    is 1 and the interval set has 399 members. *)
Lemma interval_set_count_counterexample :
  exists l, smoothed_timesteps (mkParser 1000 1 [0%nat]) 400 1 = inr l /\
            length l = 399%nat /\ ~ (length l <= 200)%nat.
Proof.
  eexists. split; [reflexivity|]. split; [reflexivity|]. simpl. lia.
Qed.

Lemma interval_set_progression_witness :
  smoothed_timesteps (mkParser 2 50 [0%nat]) 13 1 = inr [10; 11; 12] /\
  Z.min (Z.of_nat 1 * 13 / 1) 13 - Z.quot 1000 (50 * 2) < 2 ^ 52 /\
  (length [10; 11; 12] <= 399)%nat.
Proof.
  split; [reflexivity|]. split; [vm_compute; reflexivity|].
  apply (interval_set_progression (mkParser 2 50 [0%nat]) 13 1 [10; 11; 12]
           eq_refl).
  vm_compute. reflexivity.
Defined.

(** ** Wrapping of fractional deltas *)

Section Wrap.
Local Open Scope Q_scope.

Lemma frac_part_bounds (d : Q) :
  0 <= d - inject_Z (Qfloor d) /\ d - inject_Z (Qfloor d) < 1.
Proof.
  pose proof (Qfloor_le d) as Hlo. pose proof (Qlt_floor d) as Hhi.
  rewrite inject_Z_plus in Hhi. change (inject_Z 1) with 1 in Hhi.
  split; lra.
Qed.

(** The three cases of [np.round]. *)
Lemma wrap_cases (d : Q) :
  let r := d - inject_Z (Qfloor d) in
  (r < 1 # 2 /\ wrap d == r) \/
  (1 # 2 < r /\ wrap d == r - 1) \/
  (r == 1 # 2 /\ Z.even (Qfloor d) = true /\ wrap d == 1 # 2) \/
  (r == 1 # 2 /\ Z.even (Qfloor d) = false /\ wrap d == - (1 # 2)).
Proof.
  intros r. unfold wrap, round_half_even. fold r.
  destruct (r ?= 1 # 2) eqn:E.
  - apply Qeq_alt in E.
    destruct (Z.even (Qfloor d)) eqn:Ev.
    + right. right. left. repeat split; try assumption; subst r; lra.
    + right. right. right. repeat split; try assumption.
      rewrite inject_Z_plus. change (inject_Z 1) with 1. subst r. lra.
  - apply Qlt_alt in E. left. split; [assumption|]. reflexivity.
  - apply Qgt_alt in E. right. left. split; [assumption|].
    rewrite inject_Z_plus. change (inject_Z 1) with 1. subst r. lra.
Qed.

Lemma wrap_bounds (d : Q) : - (1 # 2) <= wrap d <= 1 # 2.
Proof.
  pose proof (frac_part_bounds d) as Hr.
  destruct (wrap_cases d) as [[H1 H2]|[[H1 H2]|[(H1 & _ & H2)|(H1 & _ & H2)]]];
    rewrite H2; lra.
Qed.

(** The upper end is reached exactly at the half-integers above an even
    integer. *)
Lemma wrap_half_iff (d : Q) :
  wrap d == 1 # 2 <->
  d - inject_Z (Qfloor d) == 1 # 2 /\ Z.even (Qfloor d) = true.
Proof.
  pose proof (frac_part_bounds d) as Hr.
  destruct (wrap_cases d) as [[H1 H2]|[[H1 H2]|[(H1 & Hev & H2)|(H1 & Hev & H2)]]];
    rewrite H2; split; try (intros [? ?]); try lra; try congruence; auto.
Qed.
End Wrap.

Lemma Forall_map_iff {A B} (f : A -> B) (P : B -> Prop) (l : list A) :
  Forall P (map f l) <-> Forall (fun x => P (f x)) l.
Proof. apply Forall_map. Qed.

(** C7 as stated fails: a fractional coordinate moving from 1/4 to 3/4
    gives the delta 1/2, which [np.round] sends to 0, so the wrapped delta
    is 1/2 itself. *)
Lemma wrapped_delta_half_counterexample :
  exists d latt,
    wrapped_deltas half_step_run = inr (d, latt) /\
    ~ Forall (Forall (v3all (fun x => (- (1 # 2) <= x < 1 # 2)%Q))) d.
Proof.
  eexists. eexists. split; [vm_compute; reflexivity|].
  intros H. inversion H as [|r rs Hr _]; subst.
  inversion Hr as [|v vs _ Hvs]; subst.
  inversion Hvs as [|w ws Hw _]; subst.
  destruct Hw as [[_ Hlt] _]. vm_compute in Hlt. discriminate.
Qed.

(** ** Shapes in [_get_structure_and_disp] *)

Lemma cumsum_from_length (acc : vec3 Q) (l : list (vec3 Q)) :
  length (cumsum_from acc l) = length l.
Proof. revert acc. induction l as [|x r IH]; intros acc; simpl; auto. Qed.

Lemma cumsum_length (l : list (vec3 Q)) : length (cumsum l) = length l.
Proof. destruct l; simpl; [reflexivity|]. now rewrite cumsum_from_length. Qed.

Lemma removelast_length_pred {A} (l : list A) :
  length (removelast l) = pred (length l).
Proof.
  induction l as [|x [|y r] IH]; try reflexivity.
  change (length (removelast (x :: y :: r))) with (S (length (removelast (y :: r)))).
  rewrite IH. reflexivity.
Qed.

Lemma diff_axis1_length (row : list (vec3 Q)) :
  length (diff_axis1 row) = pred (length row).
Proof.
  unfold diff_axis1. rewrite length_map, length_combine, removelast_length_pred.
  destruct row; simpl; lia.
Qed.

Lemma concatenate_axis1_shape (coords arr : list (list (vec3 Q))) :
  concatenate_axis1 coords = inr arr ->
  has_shape (length (hd [] coords)) (length coords) arr.
Proof.
  unfold concatenate_axis1. destruct coords as [|f0 cs]; [discriminate|].
  destruct (forallb _ _); [|discriminate].
  intros H. injection H as <-. split.
  - now rewrite length_map, length_seq.
  - apply Forall_map, Forall_forall. intros i _. cbn [length].
    now rewrite length_map.
Qed.

Lemma concatenate_axis1_returns (n : nat) (coords : list (list (vec3 Q))) :
  coords <> [] -> Forall (fun f => length f = n) coords ->
  exists arr, concatenate_axis1 coords = inr arr.
Proof.
  intros Hne Hall. unfold concatenate_axis1.
  destruct coords as [|f0 cs]; [contradiction|].
  assert (Hf : forallb (fun f => Nat.eqb (length f) (length f0)) (f0 :: cs) = true).
  { apply forallb_forall. intros f Hin. apply Nat.eqb_eq.
    rewrite Forall_forall in Hall.
    rewrite (Hall f Hin), (Hall f0 (or_introl eq_refl)). reflexivity. }
  rewrite Hf. eexists. reflexivity.
Qed.

(** What [wrapped_deltas] returns: the lattice list is the frames' lattices
    behind a copy of the first, and every site has one delta per frame. *)
Lemma wrapped_deltas_inr (structures : list structure)
      (d : list (list (vec3 Q))) (latt : list mat3) :
  wrapped_deltas structures = inr (d, latt) ->
  tl latt = map lattice structures /\
  has_shape (length (sites (hd (mkStructure [] (cubic 0)) structures)))
            (length structures) d.
Proof.
  unfold wrapped_deltas. destruct structures as [|s0 rest]; [discriminate|].
  cbn [map hd sites].
  destruct (concatenate_axis1 _) as [e|arr] eqn:E; [discriminate|].
  simpl. intros H. injection H as <- <-. split; [reflexivity|].
  apply concatenate_axis1_shape in E. destruct E as [Hn Hrows].
  cbn [hd length] in Hn, Hrows. rewrite !length_map in *.
  split.
  - rewrite length_map. exact Hn.
  - apply Forall_map. eapply Forall_impl; [|exact Hrows].
    intros row Hrow. cbn beta. rewrite length_map, diff_axis1_length, Hrow.
    reflexivity.
Qed.

Lemma frac_disp_inr (structures : list structure)
      (f_disp : list (list (vec3 Q))) (latt : list mat3) :
  frac_disp structures = inr (f_disp, latt) ->
  tl latt = map lattice structures /\
  has_shape (length (sites (hd (mkStructure [] (cubic 0)) structures)))
            (length structures) f_disp.
Proof.
  unfold frac_disp. destruct (wrapped_deltas structures) as [e|[d l]] eqn:E;
    [discriminate|].
  simpl. intros H. injection H as <- <-.
  apply wrapped_deltas_inr in E. destruct E as [Hl [Hn Hrows]].
  split; [assumption|]. split.
  - now rewrite length_map.
  - apply Forall_map. eapply Forall_impl; [|exact Hrows].
    intros row Hrow. cbn beta. now rewrite cumsum_length.
Qed.

Lemma nth_map_combine {A B C} (g : A * B -> C) (la : list A) (lb : list B)
      (t : nat) (a : A) (b : B) (c : C) :
  length la = length lb -> (t < length la)%nat ->
  nth t (map g (combine la lb)) c = g (nth t la a, nth t lb b).
Proof.
  intros Hlen Ht.
  rewrite nth_indep with (d' := g (a, b))
    by (rewrite length_map, length_combine; lia).
  rewrite map_nth, combine_nth by assumption. reflexivity.
Qed.

Lemma nth_map_in {A B} (f : A -> B) (l : list A) (i : nat) (a : A) (b : B) :
  (i < length l)%nat -> nth i (map f l) b = f (nth i l a).
Proof.
  intros Hi. rewrite nth_indep with (d' := f a) by now rewrite length_map.
  apply map_nth.
Qed.

(** C8, as the code has it.  The Cartesian displacement of frame [t] is the
    unwrapped fractional displacement of frame [t] times the lattice matrix
    of frame [t] itself, whatever the constant-lattice test says; it is
    frame 0's matrix when every frame has that matrix. *)
Theorem disp_uses_frame_lattice
        (structures : list structure) (s0 : structure)
        (disp : list (list (vec3 Q))) :
  get_structure_and_disp structures = inr (s0, disp) ->
  exists f_disp latt,
    frac_disp structures = inr (f_disp, latt) /\
    has_shape (length f_disp) (length structures) disp /\
    (forall i t, (i < length f_disp)%nat -> (t < length structures)%nat ->
       nth t (nth i disp []) qzero3
       = dot (nth t (nth i f_disp []) qzero3)
             (lattice (nth t structures s0))) /\
    ((forall st, In st structures -> lattice st = lattice s0) ->
     forall i t, (i < length f_disp)%nat -> (t < length structures)%nat ->
       nth t (nth i disp []) qzero3
       = dot (nth t (nth i f_disp []) qzero3) (lattice s0)).
Proof.
  unfold get_structure_and_disp. destruct structures as [|s rest] eqn:Es;
    [discriminate|]. rewrite <- Es.
  destruct (frac_disp structures) as [e|[f_disp latt]] eqn:E; [discriminate|].
  cbn [bind]. intros H. injection H as <- <-.
  destruct (frac_disp_inr _ _ _ E) as [Hl [_ Hrows]].
  rewrite Hl. exists f_disp, latt.
  assert (Hrow : forall i, (i < length f_disp)%nat ->
                           length (nth i f_disp []) = length structures).
  { intros i Hi. rewrite Forall_forall in Hrows. apply Hrows, nth_In, Hi. }
  assert (Hent : forall i t, (i < length f_disp)%nat -> (t < length structures)%nat ->
     nth t (nth i (map (fun r => map (fun dm => dot (fst dm) (snd dm))
                                     (combine r (map lattice structures)))
                       f_disp) []) qzero3
     = dot (nth t (nth i f_disp []) qzero3) (lattice (nth t structures s))).
  { intros i t Hi Ht.
    rewrite (nth_map_in _ f_disp i [] []) by assumption.
    rewrite (nth_map_combine _ _ _ t qzero3 (lattice s))
      by (rewrite ?length_map, Hrow; auto).
    cbn [fst snd]. rewrite (nth_map_in lattice structures t s) by assumption.
    reflexivity. }
  split; [reflexivity|]. split; [|split].
  - split; [now rewrite length_map|].
    apply Forall_map, Forall_forall. intros r Hr. cbn beta.
    rewrite Forall_forall in Hrows.
    rewrite length_map, length_combine, length_map, (Hrows r Hr). lia.
  - exact Hent.
  - intros Hconst i t Hi Ht. rewrite Hent by assumption.
    rewrite (Hconst (nth t structures s)); [reflexivity|].
    apply nth_In, Ht.
Qed.

(** C8 as stated fails: in [breathing_run] the first and the last lattice
    are equal, and the displacement of frame 1 is computed with the doubled
    lattice of frame 1, not with frame 0's. *)
Lemma disp_frame0_lattice_counterexample :
  exists s0 disp f_disp latt,
    get_structure_and_disp breathing_run = inr (s0, disp) /\
    frac_disp breathing_run = inr (f_disp, latt) /\
    constant_lattice latt = true /\
    ~ q3eq (nth 1 (nth 0 disp []) qzero3)
           (dot (nth 1 (nth 0 f_disp []) qzero3) (lattice s0)).
Proof.
  do 4 eexists. split; [vm_compute; reflexivity|].
  split; [vm_compute; reflexivity|]. split; [reflexivity|].
  intros [H _]. vm_compute in H. discriminate.
Qed.

Lemma disp_uses_frame_lattice_witness :
  exists s0 disp,
    get_structure_and_disp breathing_run = inr (s0, disp) /\
    exists f_disp latt,
      frac_disp breathing_run = inr (f_disp, latt) /\
      nth 1 (nth 0 disp []) qzero3
      = dot (nth 1 (nth 0 f_disp []) qzero3) (cubic 2).
Proof.
  do 2 eexists. split; [vm_compute; reflexivity|].
  destruct (disp_uses_frame_lattice breathing_run _ _ eq_refl)
    as (f_disp & latt & Hf & _ & Hent & _).
  exists f_disp, latt. split; [exact Hf|].
  apply (Hent 0%nat 1%nat).
  - apply frac_disp_inr in Hf. destruct Hf as [_ [Hn _]]. rewrite Hn. simpl. lia.
  - simpl. lia.
Defined.

(** ** Sums and means of finite values *)

Lemma vsum_Some (l : list Q) : vsum (map (@Some Q) l) = Some (qsum l).
Proof.
  unfold vsum. induction l as [|x r IH]; [reflexivity|].
  cbn [map fold_right]. rewrite IH. reflexivity.
Qed.

Lemma mean_Some (l : list Q) :
  l <> [] -> mean (map (@Some Q) l) = Some (qsum l / qcount l)%Q.
Proof.
  destruct l as [|x r]; [contradiction|]. intros _.
  unfold mean. cbn [map]. change (Some x :: map (@Some Q) r) with (map (@Some Q) (x :: r)).
  rewrite vsum_Some, length_map. reflexivity.
Qed.

Lemma qcount_cons {A} (x : A) (l : list A) : (qcount (x :: l) == qcount l + 1)%Q.
Proof.
  unfold qcount. cbn [length]. rewrite Nat2Z.inj_succ, <- Z.add_1_r, inject_Z_plus.
  reflexivity.
Qed.

Lemma qcount_pos {A} (l : list A) : l <> [] -> (0 < qcount l)%Q.
Proof.
  destruct l as [|x r]; [contradiction|]. intros _.
  unfold qcount. change 0%Q with (inject_Z 0). rewrite <- Zlt_Qlt.
  cbn [length]. lia.
Qed.

Lemma qsum_shift {A} (x : A -> Q) (m : Q) (l : list A) :
  (qsum (map (fun i => x i - m) l) == qsum (map x l) - qcount l * m)%Q.
Proof.
  induction l as [|i r IH].
  - unfold qcount. simpl. ring.
  - cbn [map qsum fold_right]. fold (qsum (map (fun i => x i - m)%Q r)).
    fold (qsum (map x r)). rewrite IH, qcount_cons. ring.
Qed.

(** Subtracting the mean leaves a population of mean zero. *)
Lemma mean_of_centred {A} (x : A -> Q) (l : list A) :
  l <> [] ->
  let m := (qsum (map x l) / qcount l)%Q in
  is_zero (mean (map (fun i => Some (x i - m)%Q) l)).
Proof.
  intros Hne m.
  rewrite <- (map_map (fun i => (x i - m)%Q) (@Some Q)).
  rewrite mean_Some by (destruct l; [contradiction | discriminate]).
  eexists. split; [reflexivity|].
  rewrite qsum_shift. unfold qcount at 2. rewrite length_map. fold (qcount l).
  pose proof (qcount_pos l Hne) as Hpos. subst m.
  field. intros H0. rewrite H0 in Hpos. now apply Qlt_irrefl in Hpos.
Qed.

(** ** The species partition *)

Lemma partition_sites_app (specie : string) (ss : list site) :
  forall i mob fw,
    partition_sites specie i ss mob fw
    = (mob ++ fst (partition_sites specie i ss [] []),
       fw ++ snd (partition_sites specie i ss [] [])).
Proof.
  induction ss as [|s r IH]; intros i mob fw; cbn [partition_sites].
  - now rewrite !app_nil_r.
  - destruct (String.eqb (symbol s) specie).
    + rewrite (IH (S i) (mob ++ [i]) fw), (IH (S i) ([] ++ [i]) []).
      cbn [fst snd app]. now rewrite <- app_assoc.
    + rewrite (IH (S i) mob (fw ++ [i])), (IH (S i) [] ([] ++ [i])).
      cbn [fst snd app]. now rewrite <- app_assoc.
Qed.

Lemma partition_sites_bound (specie : string) (ss : list site) :
  forall i,
    Forall (fun j => (i <= j < i + length ss)%nat)
           (fst (partition_sites specie i ss [] [])) /\
    Forall (fun j => (i <= j < i + length ss)%nat)
           (snd (partition_sites specie i ss [] [])).
Proof.
  induction ss as [|s r IH]; intros i; cbn [partition_sites].
  - split; constructor.
  - destruct (IH (S i)) as [Hm Hf].
    assert (Hw : forall l, Forall (fun j => (S i <= j < S i + length r)%nat) l ->
                           Forall (fun j => (i <= j < i + length (s :: r))%nat) l).
    { intros l. apply Forall_impl. intros j. cbn [length]. lia. }
    destruct (String.eqb (symbol s) specie);
      rewrite partition_sites_app; cbn [fst snd app length]; split;
      try (constructor; [lia|]); auto.
Qed.

Lemma framework_of_bound (specie : string) (st : structure) :
  Forall (fun j => (j < length (sites st))%nat) (framework_of specie st).
Proof.
  destruct (partition_sites_bound specie (sites st) 0) as [_ H].
  unfold framework_of. eapply Forall_impl; [|exact H]. intros j. cbn beta. lia.
Qed.

Lemma mobile_of_bound (specie : string) (st : structure) :
  Forall (fun j => (j < length (sites st))%nat) (mobile_of specie st).
Proof.
  destruct (partition_sites_bound specie (sites st) 0) as [H _].
  unfold mobile_of. eapply Forall_impl; [|exact H]. intros j. cbn beta. lia.
Qed.

Lemma partition_all_mobile (specie : string) (ss : list site) :
  Forall (fun s => symbol s = specie) ss ->
  forall i, snd (partition_sites specie i ss [] []) = [].
Proof.
  induction 1 as [|s r Hs _ IH]; intros i; cbn [partition_sites]; [reflexivity|].
  rewrite Hs, String.eqb_refl, partition_sites_app. cbn [snd app]. apply IH.
Qed.

Lemma partition_none_mobile (specie : string) (ss : list site) :
  Forall (fun s => symbol s <> specie) ss ->
  forall i, fst (partition_sites specie i ss [] []) = [].
Proof.
  induction 1 as [|s r Hs _ IH]; intros i; cbn [partition_sites]; [reflexivity|].
  apply String.eqb_neq in Hs. rewrite Hs, partition_sites_app.
  cbn [fst app]. apply IH.
Qed.

(** ** Indexing *)

Lemma take_rows_ok {A} (a : list A) (idx : list nat) (d : A) :
  Forall (fun i => (i < length a)%nat) idx ->
  take_rows a idx = inr (map (fun i => nth i a d) idx).
Proof.
  unfold take_rows. induction 1 as [|i r Hi _ IH]; [reflexivity|].
  cbn [mapM map]. rewrite (nth_error_nth' a d Hi). cbn [bind ret].
  rewrite IH. reflexivity.
Qed.

Lemma has_shape_row {A} (n nsteps : nat) (a : list (list A)) (i : nat) :
  has_shape n nsteps a -> (i < n)%nat -> length (nth i a []) = nsteps.
Proof.
  intros [Hn Hrows] Hi. rewrite Forall_forall in Hrows.
  apply Hrows, nth_In. lia.
Qed.

Lemma has_shape_first {A} (n nsteps : nat) (a : list (list A)) :
  has_shape n nsteps a -> (0 < n)%nat ->
  exists r0 rest, a = r0 :: rest /\ length r0 = nsteps.
Proof.
  intros [Hn Hrows] Hpos. destruct a as [|r0 rest]; [simpl in Hn; lia|].
  exists r0, rest. split; [reflexivity|]. now inversion Hrows.
Qed.

Lemma inject_shape (n nsteps : nat) (disp : list (list (vec3 Q))) :
  has_shape n nsteps disp -> has_shape n nsteps (inject disp).
Proof.
  intros [Hn Hrows]. unfold inject. split; [now rewrite length_map|].
  apply Forall_map. eapply Forall_impl; [|exact Hrows].
  intros r Hr. cbn beta. now rewrite length_map.
Qed.

Lemma inject_entry (n nsteps : nat) (disp : list (list (vec3 Q))) (i t : nat) :
  has_shape n nsteps disp -> (i < n)%nat -> (t < nsteps)%nat ->
  nth t (nth i (inject disp) []) nan3
  = v3map (@Some Q) (nth t (nth i disp []) qzero3).
Proof.
  intros Hs Hi Ht. unfold inject.
  rewrite (nth_map_in _ disp i [] []) by (destruct Hs; lia).
  apply nth_map_in. now rewrite (has_shape_row n nsteps disp i).
Qed.

Lemma sub_axis0_shape (n nsteps : nat) (a : list (list (vec3 val)))
      (avg : list (vec3 val)) :
  has_shape n nsteps a -> length avg = nsteps ->
  has_shape n nsteps (sub_axis0 a avg).
Proof.
  intros [Hn Hrows] Havg. unfold sub_axis0. split; [now rewrite length_map|].
  apply Forall_map. eapply Forall_impl; [|exact Hrows].
  intros r Hr. cbn beta in *. rewrite length_map, length_combine. lia.
Qed.

Lemma sub_axis0_entry (n nsteps : nat) (a : list (list (vec3 val)))
      (avg : list (vec3 val)) (i t : nat) :
  has_shape n nsteps a -> length avg = nsteps ->
  (i < n)%nat -> (t < nsteps)%nat ->
  nth t (nth i (sub_axis0 a avg) []) nan3
  = v3map2 vsub (nth t (nth i a []) nan3) (nth t avg nan3).
Proof.
  intros Hs Havg Hi Ht. unfold sub_axis0.
  rewrite (nth_map_in _ a i [] []) by (destruct Hs; lia).
  pose proof (has_shape_row n nsteps a i Hs Hi) as Hrow.
  rewrite (nth_map_combine _ _ _ t nan3 nan3) by lia. reflexivity.
Qed.

Lemma average_axis0_inr (nsteps : nat) (a : list (list (vec3 val))) :
  (0 < nsteps)%nat ->
  exists avg, average_axis0 nsteps a = inr avg /\ length avg = nsteps /\
    forall t, (t < nsteps)%nat ->
      nth t avg nan3
      = V3 (mean (map (fun row => c0 (nth t row nan3)) a))
           (mean (map (fun row => c1 (nth t row nan3)) a))
           (mean (map (fun row => c2 (nth t row nan3)) a)).
Proof.
  intros Hpos. unfold average_axis0.
  destruct (Nat.eqb_spec nsteps 0) as [|_]; [lia|].
  eexists. split; [reflexivity|]. split; [now rewrite length_map, length_seq|].
  intros t Ht.
  rewrite (nth_map_in _ (seq 0 nsteps) t 0%nat) by now rewrite length_seq.
  rewrite seq_nth by assumption. reflexivity.
Qed.

(** ** Drift correction *)

Section DriftCorrection.
Variable self : parser.
Variable st : structure.
Variable disp : list (list (vec3 Q)).
Variable specie : string.
Variables n nsteps : nat.

Hypothesis disp_shape : has_shape n nsteps disp.
Hypothesis some_site : (0 < n)%nat.
Hypothesis some_frame : (0 < nsteps)%nat.
Hypothesis sites_in_disp : (length (sites st) <= n)%nat.

Let framework : list nat := framework_of specie st.
Let framework_disp : list (list (vec3 val)) :=
  map (fun i => nth i (inject disp) []) framework.

Lemma framework_in_disp : Forall (fun i => (i < n)%nat) framework.
Proof.
  eapply Forall_impl; [|apply framework_of_bound]. intros i. cbn beta. lia.
Qed.

(** On a three-dimensional array the method returns: the mobile sites are
    appended to [self.indices] and the framework average [drift] is
    subtracted from every site. *)
Lemma correct_for_drift_inr :
  exists drift,
    average_axis0 nsteps framework_disp = inr drift /\
    length drift = nsteps /\
    correct_for_drift self st disp specie
    = inr (mkParser (time_step self) (step_skip self)
                    (indices self ++ mobile_of specie st),
           sub_axis0 (inject disp) drift).
Proof.
  destruct (average_axis0_inr nsteps framework_disp some_frame)
    as (drift & Havg & Hlen & _).
  exists drift. split; [assumption|]. split; [assumption|].
  unfold correct_for_drift. rewrite partition_sites_app. cbn [app].
  fold (mobile_of specie st). fold (framework_of specie st). fold framework.
  rewrite (take_rows_ok (inject disp) framework []).
  2:{ destruct (inject_shape n nsteps disp disp_shape) as [-> _].
      apply framework_in_disp. }
  cbn [bind]. fold framework_disp.
  destruct (has_shape_first n nsteps disp disp_shape some_site)
    as (r0 & rest & Hd & Hr0).
  rewrite Hd at 1. rewrite Hr0, Havg. reflexivity.
Qed.

(** One component of the framework average of frame [t]. *)
Lemma framework_mean_component (p : forall A, vec3 A -> A) (t : nat) :
  (forall A B (g : A -> B) u, p B (v3map g u) = g (p A u)) ->
  (t < nsteps)%nat -> framework <> [] ->
  mean (map (fun row => p val (nth t row nan3)) framework_disp)
  = Some (qsum (map (fun i => p Q (nth t (nth i disp []) qzero3)) framework)
          / qcount framework)%Q.
Proof.
  intros Hp Ht Hne. subst framework_disp. rewrite map_map.
  rewrite (map_ext_in _ (fun i => Some (p Q (nth t (nth i disp []) qzero3)))).
  2:{ intros i Hi. pose proof framework_in_disp as Hb.
      rewrite Forall_forall in Hb.
      rewrite (inject_entry n nsteps) by auto. apply Hp. }
  rewrite <- (map_map (fun i => p Q (nth t (nth i disp []) qzero3)) (@Some Q)).
  rewrite mean_Some by (destruct framework; [contradiction | discriminate]).
  unfold qcount. now rewrite length_map.
Qed.

(** C10.  When every site is of the mobile species the method returns and
    every entry of the corrected array is [nan]. *)
Theorem drift_without_framework_is_nan :
  Forall (fun s => symbol s = specie) (sites st) ->
  exists self' dc,
    correct_for_drift self st disp specie = inr (self', dc) /\
    has_shape n nsteps dc /\
    Forall (Forall (fun v => v = nan3)) dc.
Proof.
  intros Hall.
  destruct correct_for_drift_inr as (drift & Hdrift & Hlen & Hret).
  pose proof (inject_shape n nsteps disp disp_shape) as Hinj.
  pose proof (sub_axis0_shape n nsteps (inject disp) drift Hinj Hlen) as Hdc.
  do 2 eexists. split; [exact Hret|]. split; [exact Hdc|].
  assert (Hnan : Forall (fun v => v = nan3) drift).
  { subst framework_disp framework. unfold framework_of in Hdrift.
    rewrite (partition_all_mobile specie (sites st) Hall) in Hdrift.
    unfold average_axis0 in Hdrift.
    destruct (Nat.eqb nsteps 0); [discriminate|].
    injection Hdrift as <-. apply Forall_map, Forall_forall.
    intros t _. reflexivity. }
  unfold sub_axis0. apply Forall_map, Forall_forall. intros row _. cbn beta.
  apply Forall_map, Forall_forall. intros [v a] Hin. cbn [fst snd].
  apply in_combine_r in Hin. rewrite Forall_forall in Hnan.
  rewrite (Hnan a Hin). destruct v as [[x|] [y|] [z|]]; reflexivity.
Qed.
End DriftCorrection.

(** ** Mean-squared displacement *)

Lemma mapM_ok {A B} (f : A -> result B) (g : A -> B) (l : list A) :
  (forall x, In x l -> f x = inr (g x)) -> mapM f l = inr (map g l).
Proof.
  induction l as [|x r IH]; intros H; [reflexivity|].
  cbn [mapM map]. rewrite (H x (or_introl eq_refl)). cbn [bind].
  rewrite IH by (intros y Hy; apply H; now right). reflexivity.
Qed.

Lemma list_by_index {A} (l : list A) (d : A) :
  l = map (fun f => nth f l d) (seq 0 (length l)).
Proof.
  apply (nth_ext _ _ d d).
  - now rewrite length_map, length_seq.
  - intros i Hi.
    rewrite (nth_map_in _ (seq 0 (length l)) i 0%nat) by now rewrite length_seq.
    now rewrite seq_nth.
Qed.

(** The two slices of one site for an interval of [k] frames, paired. *)
Lemma combine_slices {A} (l : list A) (k : nat) (d : A) :
  (k <= length l)%nat ->
  combine (skipn k l) (firstn (length l - k) l)
  = map (fun f => (nth (f + k) l d, nth f l d)) (seq 0 (length l - k)).
Proof.
  intros Hk.
  assert (Hlen : length (combine (skipn k l) (firstn (length l - k) l))
                 = (length l - k)%nat)
    by (rewrite length_combine, length_skipn, length_firstn; lia).
  rewrite (list_by_index (combine _ _) (d, d)), Hlen.
  apply map_ext_in. intros f Hf. apply in_seq in Hf.
  rewrite combine_nth by (rewrite length_skipn, length_firstn; lia).
  rewrite nth_skipn, nth_firstn.
  destruct (Nat.ltb_spec f (length l - k)); [|lia].
  now rewrite Nat.add_comm.
Qed.

Section SliceBounds.
Variable A : Type.
Variable row : list A.
Variable dt : Z.
Hypothesis dt_range : 0 < dt < Z.of_nat (length row).

Lemma slice_from_skipn : slice_from dt row = skipn (Z.to_nat dt) row.
Proof.
  unfold slice_from, slice_bound.
  destruct (Z.ltb_spec dt 0); [lia|]. f_equal. lia.
Qed.

Lemma slice_to_firstn :
  slice_to (- dt) row = firstn (length row - Z.to_nat dt) row.
Proof.
  unfold slice_to, slice_bound.
  destruct (Z.ltb_spec (- dt) 0); [|lia]. f_equal. lia.
Qed.
End SliceBounds.

Lemma average_axis1_inr (a : list (list val)) :
  (0 < length a)%nat -> average_axis1 a = inr (map mean a).
Proof. destruct a; simpl; [lia | reflexivity]. Qed.

Section GetDisps.
Variable self : parser.
Variable dc : list (list (vec3 val)).
Variables n nsteps : nat.

Hypothesis dc_shape : has_shape n nsteps dc.
Hypothesis some_site : (0 < n)%nat.
Hypothesis indices_in_dc : Forall (fun a => (a < n)%nat) (indices self).

(** [disp] of line 141 for one site. *)
Let differences (k : nat) (row : list (vec3 val)) : list (vec3 val) :=
  map (fun f => v3map2 vsub (nth (f + k) row nan3) (nth f row nan3))
      (seq 0 (nsteps - k)).

Lemma subtract_slices (dt : Z) (row : list (vec3 val)) :
  0 < dt < Z.of_nat nsteps -> In row dc ->
  subtract_axis1 (slice_from dt row) (slice_to (- dt) row)
  = inr (differences (Z.to_nat dt) row).
Proof.
  intros Hdt Hin. destruct dc_shape as [_ Hrows].
  rewrite Forall_forall in Hrows. pose proof (Hrows row Hin) as Hlen.
  rewrite slice_from_skipn, slice_to_firstn by lia.
  unfold subtract_axis1.
  rewrite length_skipn, length_firstn.
  replace (Nat.min (length row - Z.to_nat dt) (length row))
    with (length row - Z.to_nat dt)%nat by lia.
  rewrite Nat.eqb_refl.
  rewrite (combine_slices row (Z.to_nat dt) nan3) by lia.
  rewrite map_map, Hlen. reflexivity.
Qed.

Lemma sq_displacement_row (k a : nat) :
  (a < n)%nat ->
  map v3sum (map sq3 (differences k (nth a dc [])))
  = map (fun f => sq_displacement dc a f k) (origins nsteps k).
Proof. intros _. unfold differences, origins. now rewrite !map_map. Qed.

(** One iteration of the loop, for an interval inside the run. *)
Lemma get_disps_step_inr (dt : Z) :
  0 < dt < Z.of_nat nsteps ->
  let k := Z.to_nat dt in
  get_disps_step self dc dt
  = inr (mean_sq_displacement dc (indices self) nsteps k,
         map (fun a => map (fun f => sq_displacement dc a f k)
                           (origins nsteps k))
             (indices self),
         map (fun a => map v3sum (differences k (nth a dc [])))
             (indices self)).
Proof.
  intros Hdt k. unfold get_disps_step.
  rewrite (mapM_ok _ (differences k)) by (intros row; now apply subtract_slices).
  cbn [bind]. destruct dc_shape as [Hn _].
  assert (Hidx : forall B (g : list (vec3 val) -> B),
             Forall (fun a => (a < length (map g (map (differences k) dc)))%nat)
                    (indices self))
    by (intros B g; now rewrite !length_map, Hn).
  assert (Hrow : forall a, (a < n)%nat ->
             nth a (map (differences k) dc) [] = differences k (nth a dc []))
    by (intros a Ha; apply nth_map_in; lia).
  rewrite !map_map.
  rewrite (take_rows_ok _ (indices self) []) by (now rewrite length_map, Hn).
  cbn [bind].
  rewrite (take_rows_ok _ (indices self) []) by (now rewrite length_map, Hn).
  cbn [bind].
  rewrite average_axis1_inr by (rewrite length_map, Hn; exact some_site).
  cbn [bind]. rewrite map_map.
  rewrite (take_rows_ok (A:=val) _ (indices self) None)
    by (now rewrite length_map, Hn).
  cbn [bind ret]. unfold mean_sq_displacement.
  rewrite Forall_forall in indices_in_dc.
  apply f_equal.
  apply f_equal2; [apply f_equal2; [apply f_equal|]|];
    apply map_ext_in; intros a Ha; specialize (indices_in_dc a Ha).
  - rewrite (nth_map_in (B:=val) _ dc a [] None) by lia.
    now rewrite sq_displacement_row.
  - rewrite (nth_map_in _ dc a [] []) by lia.
    now rewrite sq_displacement_row.
  - now rewrite (nth_map_in _ dc a [] []) by lia.
Qed.

(** The interval 0 cannot be processed: from two frames on, the slices
    [[:, 0:, :]] and [[:, :-0, :]] have [nsteps] and 0 frames, and
    [np.subtract] cannot broadcast them. *)
Lemma get_disps_step_zero_interval :
(2 <= nsteps)%nat -> get_disps_step self dc 0 = inl broadcast_error.
Proof.
intros Hns.
destruct (has_shape_first n nsteps dc dc_shape some_site)
  as (r0 & rest & -> & Hr0).
unfold get_disps_step. cbn [mapM].
unfold slice_from, slice_to, slice_bound. cbn [Z.ltb Z.compare Z.opp Z.to_nat].
rewrite Nat.min_0_l. cbn [skipn firstn]. unfold subtract_axis1.
destruct r0 as [|x [|y r]]; cbn [length] in Hr0; try lia.
reflexivity.
Qed.

End GetDisps.

(** ** Construction *)

Lemma get_structure_and_disp_inr (s0 : structure) (rest : list structure)
      (n : nat) :
  frames_have n (s0 :: rest) ->
  exists disp,
    get_structure_and_disp (s0 :: rest) = inr (s0, disp) /\
    has_shape n (S (length rest)) disp.
Proof.
  intros Hf.
  assert (Hn0 : length (sites s0) = n) by now inversion Hf.
  assert (Hw : exists d latt, wrapped_deltas (s0 :: rest) = inr (d, latt)).
  { unfold wrapped_deltas. cbn [map].
    destruct (concatenate_axis1_returns n
                (map frac_coords (sites s0) :: map frac_coords (sites s0)
                 :: map (fun s => map frac_coords (sites s)) rest))
      as [arr Harr]; [discriminate| |rewrite Harr; cbn [bind ret]; eauto].
    constructor; [now rewrite length_map|].
    change (Forall (fun f => length f = n)
                   (map (fun s => map frac_coords (sites s)) (s0 :: rest))).
    apply Forall_map. eapply Forall_impl; [|exact Hf].
    intros s Hs. cbn beta. now rewrite length_map. }
  destruct Hw as (d & latt & Hw).
  assert (Hfd : frac_disp (s0 :: rest) = inr (map cumsum d, latt))
    by (unfold frac_disp; rewrite Hw; reflexivity).
  destruct (frac_disp_inr _ _ _ Hfd) as [Hl [Hlen Hrows]].
  cbn [hd] in Hlen. rewrite Hn0 in Hlen.
  unfold get_structure_and_disp. rewrite Hfd. cbn [bind ret].
  eexists. split; [reflexivity|]. split; [now rewrite length_map|].
  apply Forall_map. eapply Forall_impl; [|exact Hrows].
  intros r Hr. cbn beta in *.
  rewrite length_map, length_combine, Hl, length_map, Hr. cbn [length]. lia.
Qed.

Lemma shape1_of_shape {A} (n nsteps : nat) (a : list (list A)) :
  has_shape n nsteps a -> (0 < n)%nat -> shape1 a = nsteps.
Proof.
  intros Hs Hn. destruct (has_shape_first n nsteps a Hs Hn) as (r & rs & -> & Hr).
  exact Hr.
Qed.

Section Construction.
Variable structures : list structure.
Variable specie : string.
Variables tstep sskip min_obs : Z.
Variable n : nat.

Hypothesis some_site : (0 < n)%nat.
Hypothesis same_sites : frames_have n structures.

(** With at least one frame the first two stages return, and the
    constructor is the interval sampler followed by [get_disps]. *)
Lemma init_reaches_sampler (s0 : structure) (rest : list structure) :
  structures = s0 :: rest ->
  exists dc,
    has_shape n (length structures) dc /\
    init structures specie tstep sskip min_obs
    = (let self := mkParser tstep sskip (mobile_of specie s0) in
       timesteps <- smoothed_timesteps self (Z.of_nat (length structures))
                                       min_obs ;;
       r <- get_disps self timesteps dc ;;
       ret (self, r)).
Proof.
  intros Hs. pose proof same_sites as Hf. rewrite Hs in Hf |- *.
  destruct (get_structure_and_disp_inr s0 rest n Hf) as (disp & Hd & Hshape).
  assert (Hn0 : (length (sites s0) <= n)%nat)
    by (inversion Hf; subst; lia).
  destruct (correct_for_drift_inr (mkParser tstep sskip [])
              s0 disp specie n (S (length rest)) Hshape some_site
              ltac:(lia) Hn0) as (drift & _ & Hlen & Hc).
  exists (sub_axis0 (inject disp) drift).
  pose proof (sub_axis0_shape n (S (length rest)) (inject disp) drift
                (inject_shape _ _ _ Hshape) Hlen) as Hdc.
  split; [exact Hdc|].
  unfold init. rewrite Hd. cbn [bind fst snd]. rewrite Hc.
  cbn [bind app time_step step_skip].
  rewrite (shape1_of_shape n (S (length rest))) by assumption.
  reflexivity.
Qed.

(** C9, as the code has it.  There is no validation of the input: without
    frames the constructor fails with [IndexError]; without mobile sites,
    or with a single frame and a time unit of at most 1000, it fails in
    the interval sampler, with the "Not enough data" [ValueError], once
    the displacements have been built and corrected. *)
Theorem init_insufficient_input :
  0 < sskip * tstep -> min_obs <> 0 ->
  (structures = [] ->
   init structures specie tstep sskip min_obs = inl IndexError) /\
  (forall s0 rest,
      structures = s0 :: rest ->
      Forall (fun s => symbol s <> specie) (sites s0) ->
      init structures specie tstep sskip min_obs
      = inl not_enough_data) /\
  (forall s0,
      structures = [s0] -> sskip * tstep <= 1000 ->
      init structures specie tstep sskip min_obs
      = inl not_enough_data).
Proof.
  intros Hk Hm. split; [|split].
  - intros ->. reflexivity.
  - intros s0 rest Hs Hnone.
    destruct (init_reaches_sampler s0 rest Hs) as (dc & _ & ->). cbn zeta.
    rewrite smoothed_timesteps_defined by (cbn; lia).
    unfold mobile_of. rewrite (partition_none_mobile specie (sites s0) Hnone).
    cbn [indices length time_step step_skip].
    assert (H0 : 0 <= Z.quot 1000 (sskip * tstep))
      by (apply Z.quot_pos; lia).
    rewrite Z.mul_0_l, Z.div_0_l by assumption.
    destruct (Z.geb_spec (Z.quot 1000 (sskip * tstep))
                         (Z.min 0 (Z.of_nat (length structures))));
      [reflexivity | lia].
  - intros s0 Hs Hk'.
    destruct (init_reaches_sampler s0 [] Hs) as (dc & _ & ->). cbn zeta.
    rewrite smoothed_timesteps_defined by (cbn; lia).
    cbn [time_step step_skip]. rewrite Hs.
    assert (Hpos : 0 < Z.quot 1000 (sskip * tstep))
      by (apply (min_dt_pos (mkParser tstep sskip []) 0 0); cbn; lia).
    destruct (Z.geb_spec (Z.quot 1000 (sskip * tstep))
                (Z.min (Z.of_nat (length (indices
                          (mkParser tstep sskip
                                    (mobile_of specie s0))))
                        * Z.of_nat (length [s0]) / min_obs)
                       (Z.of_nat (length [s0]))));
      [reflexivity | cbn [length] in *; lia].
Qed.
End Construction.

(** C9 as stated fails.  A run without sodium, asked for sodium, passes the
    displacement builder and the drift correction and is rejected only by
    the interval sampler, with the sampler's own exception.  A single frame
    kept every 2000 time units is accepted: the interval set is 0 alone and
    the mean-squared displacement is [nan]. *)
Lemma init_no_validation_counterexample :
  (exists sd sc,
      get_structure_and_disp two_frame_run = inr sd /\
      correct_for_drift (mkParser 1 1 []) (fst sd) (snd sd) "Na" = inr sc /\
      indices (fst sc) = [] /\
      smoothed_timesteps (fst sc) 2 30 = inl not_enough_data) /\
  init two_frame_run "Na" 1 1 30 = inl not_enough_data /\
  (length single_frame_run < 2)%nat /\
  init single_frame_run "Li" 2 1000 1
  = inr (mkParser 2 1000 [0%nat], mkDisps [0] [None] [[[]]] [[[]]]).
Proof.
  split; [|split; [|split]].
  - do 2 eexists. split; [vm_compute; reflexivity|].
    split; [vm_compute; reflexivity|]. split; reflexivity.
  - vm_compute. reflexivity.
  - simpl. lia.
  - vm_compute. reflexivity.
Qed.

Lemma init_insufficient_input_witness :
  (0 < 2)%nat /\ frames_have 2 single_frame_run /\ 0 < 1 * 2 /\ 1 <> 0 /\
  init single_frame_run "Li" 2 1 1 = inl not_enough_data.
Proof.
  assert (Hf : frames_have 2 single_frame_run) by (repeat constructor).
  split; [lia|]. split; [exact Hf|]. split; [lia|]. split; [lia|].
  apply (proj2 (proj2 (init_insufficient_input single_frame_run "Li" 2 1 1 2
                         ltac:(lia) Hf ltac:(lia) ltac:(lia)))
               _ eq_refl).
  lia.
Defined.

(** ** The theorems at example inputs *)

Lemma drift_without_framework_is_nan_witness :
  has_shape 2 2 lithium_disp /\
  (0 < 2)%nat /\ (0 < 2)%nat /\
  (length (sites lithium_structure) <= 2)%nat /\
  Forall (fun s => symbol s = "Li"%string) (sites lithium_structure) /\
  exists self' dc,
    correct_for_drift (mkParser 2 50 []) lithium_structure lithium_disp "Li"
    = inr (self', dc) /\
    has_shape 2 2 dc /\
    Forall (Forall (fun v => v = nan3)) dc.
Proof.
  assert (Hs : has_shape 2 2 lithium_disp)
    by (split; [reflexivity | repeat constructor]).
  assert (Hn : (0 < 2)%nat) by lia.
  assert (Hl : (length (sites lithium_structure) <= 2)%nat) by (simpl; lia).
  assert (Ha : Forall (fun s => symbol s = "Li"%string)
                      (sites lithium_structure))
    by (repeat constructor).
  repeat (split; [assumption|]).
  exact (drift_without_framework_is_nan
           (mkParser 2 50 []) lithium_structure lithium_disp "Li" 2 2
           Hs Hn Hn Hl Ha).
Defined.

(** The values behind the example: the squared displacements over one frame
    are 1 and 4, over two frames 9. *)
Example walk_msd :
  exists r,
    get_disps (mkParser 2 50 [0%nat]) [1; 2] walk_corrected = inr r /\
    delta_t r = [100; 200] /\
    Forall2 (fun v q => exists x, v = Some x /\ (x == q)%Q) (msd r) [5 # 2; 9]%Q.
Proof.
  eexists. split; [vm_compute; reflexivity|]. split; [reflexivity|].
  repeat constructor; eexists; (split; [reflexivity|]); reflexivity.
Qed.

(** The example of the specification: 100 frames, one mobile site, time
    unit 1, [min_obs] 5. *)
Example short_run_rejected :
  smoothed_timesteps (mkParser 1 1 [0%nat]) 100 5 = inl not_enough_data.
Proof. reflexivity. Qed.

(** Two frames kept 2000 time units apart: the sampled interval 0 makes the
    constructor fail in [get_disps]. *)
Example coarse_sampling_fails :
  init two_frame_run "Li" 2 1000 1 = inl broadcast_error.
Proof. vm_compute. reflexivity. Qed.

(** * Further properties of the parser *)

(** ** The interval sampler: short spans *)

(** When the admissible span [max_dt - min_dt] is below 400 frames the step
    is 1: every integer from [min_dt] up to [max_dt - 1] is sampled, in
    order, and nothing else. *)
Theorem short_span_samples_every_interval
        (self : parser) (nsteps min_obs : Z) (l : list Z) :
  let min_dt := Z.quot 1000 (step_skip self * time_step self) in
  let max_dt :=
    Z.min (Z.of_nat (length (indices self)) * nsteps / min_obs) nsteps in
  smoothed_timesteps self nsteps min_obs = inr l ->
  max_dt - min_dt < 400 ->
  Z.of_nat (length l) = max_dt - min_dt /\
  (forall i, (i < length l)%nat -> nth i l 0 = min_dt + Z.of_nat i) /\
  (forall d, In d l <-> min_dt <= d < max_dt).
Proof.
  intros min_dt max_dt H Hspan. apply smoothed_timesteps_inr in H.
  destruct H as (_ & _ & Hlt & ->). fold min_dt max_dt in Hlt |- *.
  assert (Hstep : Z.max (Z.quot (max_dt - min_dt) 200) 1 = 1).
  { rewrite Z.quot_div_nonneg by lia.
    assert ((max_dt - min_dt) / 200 < 2) by (apply Z.div_lt_upper_bound; lia).
    lia. }
  rewrite Hstep.
  pose proof (arange_count_bounds min_dt max_dt 1 ltac:(lia)) as Hn.
  split; [|split].
  - rewrite arange_length. lia.
  - intros i Hi. rewrite arange_nth by (assumption || lia). lia.
  - intros d. rewrite arange_In by lia. rewrite Z.mod_1_r. tauto.
Qed.

Lemma short_span_samples_every_interval_witness :
  smoothed_timesteps (mkParser 2 50 [0%nat]) 13 1 = inr [10; 11; 12] /\
  Z.min (Z.of_nat 1 * 13 / 1) 13 - Z.quot 1000 (50 * 2) < 400 /\
  Z.of_nat (length [10; 11; 12]) = 3.
Proof.
  split; [reflexivity|]. split; [vm_compute; reflexivity|].
  apply (short_span_samples_every_interval (mkParser 2 50 [0%nat]) 13 1
           [10; 11; 12] eq_refl).
  vm_compute. reflexivity.
Defined.

(** ** Wrapping: small deltas and whole-cell jumps *)

Section WrapMore.
Local Open Scope Q_scope.

Lemma Qfloor_unique (q : Q) (f : Z) :
  inject_Z f <= q -> q < inject_Z (f + 1) -> Qfloor q = f.
Proof.
  intros Hlo Hhi.
  pose proof (Qfloor_le q) as Hfl. pose proof (Qlt_floor q) as Hfh.
  assert (H1 : (Qfloor q < f + 1)%Z)
    by (rewrite Zlt_Qlt; eapply Qle_lt_trans; eassumption).
  assert (H2 : (f < Qfloor q + 1)%Z)
    by (rewrite Zlt_Qlt; eapply Qle_lt_trans; eassumption).
  lia.
Qed.

Lemma Qfloor_shift (d : Q) (z : Z) :
  Qfloor (d + inject_Z z) = (Qfloor d + z)%Z.
Proof.
  pose proof (Qfloor_le d) as Hfl. pose proof (Qlt_floor d) as Hfh.
  apply Qfloor_unique.
  - rewrite inject_Z_plus. lra.
  - rewrite !inject_Z_plus in *. lra.
Qed.

Lemma round_half_even_small (d : Q) :
  - (1 # 2) <= d <= 1 # 2 -> round_half_even d = 0%Z.
Proof.
  intros [Hlo Hhi]. unfold round_half_even.
  destruct (Qlt_le_dec d 0) as [Hneg | Hpos].
  - assert (Hf : Qfloor d = (-1)%Z)
      by (apply Qfloor_unique; [change (inject_Z (-1)) with (-1) |
                                change (inject_Z (-1 + 1)) with 0]; lra).
    rewrite Hf. change (inject_Z (-1)) with (-1).
    destruct (d - -1 ?= 1 # 2) eqn:E; [reflexivity| |reflexivity].
    apply Qlt_alt in E. lra.
  - assert (Hf : Qfloor d = 0%Z)
      by (apply Qfloor_unique; [change (inject_Z 0) with 0 |
                                change (inject_Z (0 + 1)) with 1]; lra).
    rewrite Hf. change (inject_Z 0) with 0.
    destruct (d - 0 ?= 1 # 2) eqn:E; [reflexivity|reflexivity|].
    apply Qgt_alt in E. lra.
Qed.

Lemma wrap_of_small (d : Q) : - (1 # 2) <= d <= 1 # 2 -> wrap d == d.
Proof.
  intros H. unfold wrap. rewrite (round_half_even_small d H).
  change (inject_Z 0) with 0. ring.
Qed.

(** A delta of at most half a cell is left as it is by line 179. *)
Theorem wrap_small_delta (d : Q) :
  - (1 # 2) <= d <= 1 # 2 -> wrap d == d.
Proof.
  intros H. unfold wrap. rewrite (round_half_even_small d H).
  change (inject_Z 0) with 0. ring.
Qed.

Lemma wrap_small_delta_witness :
  - (1 # 2) <= 1 # 2 <= 1 # 2 /\ wrap (1 # 2) == 1 # 2.
Proof.
  assert (H : - (1 # 2) <= 1 # 2 <= 1 # 2) by (split; discriminate).
  split; [exact H|]. exact (wrap_small_delta (1 # 2) H).
Defined.

(** Wrapping a wrapped delta changes nothing. *)
Theorem wrap_idempotent (d : Q) : wrap (wrap d) == wrap d.
Proof.
  unfold wrap at 1. rewrite (round_half_even_small (wrap d) (wrap_bounds d)).
  change (inject_Z 0) with 0. ring.
Qed.

Lemma round_half_even_shift (d : Q) (z : Z) :
  Z.even z = true \/ ~ d - inject_Z (Qfloor d) == 1 # 2 ->
  round_half_even (d + inject_Z z) = (round_half_even d + z)%Z.
Proof.
  intros Hz. unfold round_half_even. rewrite Qfloor_shift.
  assert (Hr : d + inject_Z z - inject_Z (Qfloor d + z)
               == d - inject_Z (Qfloor d))
    by (rewrite inject_Z_plus; ring).
  rewrite Hr.
  destruct (d - inject_Z (Qfloor d) ?= 1 # 2) eqn:E; try lia.
  apply Qeq_alt in E. destruct Hz as [Hz | Hz]; [|contradiction].
  rewrite Z.even_add, Hz.
  destruct (Z.even (Qfloor d)); cbn [Bool.eqb]; lia.
Qed.

(** A jump by whole cells across the periodic boundary is removed: shifting
    a delta by an integer does not change the wrapped delta, unless the
    delta is an exact half-integer and the shift is odd (there the tie of
    [np.round] falls on the other side). *)
Theorem wrap_whole_cell_jump (d : Q) (z : Z) :
  Z.even z = true \/ ~ d - inject_Z (Qfloor d) == 1 # 2 ->
  wrap (d + inject_Z z) == wrap d.
Proof.
  intros Hz. unfold wrap. rewrite (round_half_even_shift d z Hz).
  rewrite inject_Z_plus. ring.
Qed.

Lemma wrap_whole_cell_jump_witness :
  (Z.even 3 = true \/ ~ (1 # 10) - inject_Z (Qfloor (1 # 10)) == 1 # 2) /\
  wrap ((1 # 10) + inject_Z 3) == wrap (1 # 10).
Proof.
  assert (H : Z.even 3 = true \/ ~ (1 # 10) - inject_Z (Qfloor (1 # 10)) == 1 # 2)
    by (right; discriminate).
  split; [exact H|]. exact (wrap_whole_cell_jump (1 # 10) 3 H).
Defined.

(** At a half-integer an odd shift does change the result. *)
Example wrap_tie_odd_shift :
  wrap (1 # 2) == 1 # 2 /\ wrap ((1 # 2) + inject_Z 1) == - (1 # 2).
Proof. split; reflexivity. Qed.
End WrapMore.

(** ** The species partition of [correct_for_drift] *)

Lemma partition_sites_In (specie : string) (ss : list site) :
  forall i j,
    (In j (fst (partition_sites specie i ss [] [])) <->
     (i <= j)%nat /\
     exists s, nth_error ss (j - i) = Some s /\ symbol s = specie) /\
    (In j (snd (partition_sites specie i ss [] [])) <->
     (i <= j)%nat /\
     exists s, nth_error ss (j - i) = Some s /\ symbol s <> specie).
Proof.
  induction ss as [|s r IH]; intros i j; cbn [partition_sites fst snd].
  - split; (split; [contradiction|]); intros (_ & s & Hs & _);
      destruct (j - i)%nat; discriminate.
  - destruct (IH (S i) j) as [IHm IHf].
    assert (Hstep : forall P : site -> Prop,
      ((S i <= j)%nat /\ exists s', nth_error r (j - S i) = Some s' /\ P s') <->
      ((i <= j)%nat /\ j <> i /\
       exists s', nth_error (s :: r) (j - i) = Some s' /\ P s')).
    { intros P. split.
      - intros (Hle & s' & Hs' & HP). split; [lia|]. split; [lia|].
        exists s'. split; [|assumption].
        replace (j - i)%nat with (S (j - S i)) by lia. exact Hs'.
      - intros (Hle & Hne & s' & Hs' & HP). split; [lia|].
        exists s'. split; [|assumption].
        replace (j - i)%nat with (S (j - S i)) in Hs' by lia. exact Hs'. }
    assert (Hhead : forall P : site -> Prop,
      ((i <= j)%nat /\ exists s', nth_error (s :: r) (j - i) = Some s' /\ P s') <->
      ((j = i /\ P s) \/
       ((i <= j)%nat /\ j <> i /\
        exists s', nth_error (s :: r) (j - i) = Some s' /\ P s'))).
    { intros P. split.
      - intros (Hle & s' & Hs' & HP). destruct (Nat.eq_dec j i) as [-> | Hne].
        + left. rewrite Nat.sub_diag in Hs'. injection Hs' as ->. auto.
        + right. eauto.
      - intros [[-> HP] | (Hle & _ & Hex)]; [|auto].
        split; [lia|]. exists s. rewrite Nat.sub_diag. auto. }
    destruct (String.eqb_spec (symbol s) specie) as [Heq | Hne];
      rewrite partition_sites_app; cbn [fst snd app]; split.
    + rewrite Hhead, <- Hstep, <- IHm. cbn [In]. intuition congruence.
    + rewrite Hhead, <- Hstep, <- IHf. intuition congruence.
    + rewrite Hhead, <- Hstep, <- IHm. intuition congruence.
    + rewrite Hhead, <- Hstep, <- IHf. cbn [In]. intuition congruence.
Qed.

Lemma partition_sites_sorted (specie : string) (ss : list site) :
  forall i,
    StronglySorted lt (fst (partition_sites specie i ss [] [])) /\
    StronglySorted lt (snd (partition_sites specie i ss [] [])).
Proof.
  induction ss as [|s r IH]; intros i; cbn [partition_sites fst snd].
  - split; constructor.
  - destruct (IH (S i)) as [IHm IHf].
    destruct (partition_sites_bound specie r (S i)) as [Bm Bf].
    assert (Hlt : forall l, Forall (fun j => (S i <= j < S i + length r)%nat) l ->
                            Forall (lt i) l)
      by (intros l; apply Forall_impl; intros j; cbn beta; lia).
    destruct (String.eqb (symbol s) specie);
      rewrite partition_sites_app; cbn [fst snd app]; split;
      try assumption; constructor; auto.
Qed.

(** The loop of lines 82-86 splits the site numbers of the structure in
    two: the mobile list holds exactly the sites whose symbol is the
    requested species, the framework list exactly the others, each in
    increasing order without repetition. *)
Theorem species_partition (specie : string) (st : structure) :
  (forall j, In j (mobile_of specie st) <->
             exists s, nth_error (sites st) j = Some s /\ symbol s = specie) /\
  (forall j, In j (framework_of specie st) <->
             exists s, nth_error (sites st) j = Some s /\ symbol s <> specie) /\
  StronglySorted lt (mobile_of specie st) /\
  StronglySorted lt (framework_of specie st).
Proof.
  unfold mobile_of, framework_of.
  destruct (partition_sites_sorted specie (sites st) 0) as [Sm Sf].
  split; [|split; [|split]]; try assumption; intros j;
    destruct (partition_sites_In specie (sites st) 0 j) as [Hm Hf];
    rewrite Nat.sub_0_r in *.
  - rewrite Hm. split; [intros [_ H]; exact H | intros H; split; [lia | exact H]].
  - rewrite Hf. split; [intros [_ H]; exact H | intros H; split; [lia | exact H]].
Qed.

(** Whenever [correct_for_drift] returns, the object keeps its time step and
    its sampling frequency, and its index list is the old one followed by
    the mobile sites of the structure: the method appends, it does not
    reset. *)
Theorem correct_for_drift_appends_indices
        (self self' : parser) (st : structure) (disp : list (list (vec3 Q)))
        (specie : string) (dc : list (list (vec3 val))) :
  correct_for_drift self st disp specie = inr (self', dc) ->
  time_step self' = time_step self /\
  step_skip self' = step_skip self /\
  indices self' = indices self ++ mobile_of specie st.
Proof.
  unfold correct_for_drift. rewrite partition_sites_app. cbn [app].
  fold (mobile_of specie st).
  destruct (take_rows _ _) as [e|fw]; [discriminate|]. cbn [bind].
  destruct disp as [|r0 rest]; [discriminate|].
  destruct (average_axis0 _ _) as [e|avg]; [discriminate|]. cbn [bind ret].
  intros H. injection H as <- _. auto.
Qed.

Lemma correct_for_drift_appends_indices_witness :
  exists self' dc,
    correct_for_drift (mkParser 2 50 [7%nat]) drifting_structure drifting_disp
                      "O" = inr (self', dc) /\
    indices self' = [7; 1; 2]%nat.
Proof.
  do 2 eexists. split; [vm_compute; reflexivity|].
  apply (correct_for_drift_appends_indices
           (mkParser 2 50 [7%nat]) _ drifting_structure drifting_disp "O" _
           eq_refl).
Defined.

(** ** Outcomes of [_get_structure_and_disp] *)

Lemma frames_have_forallb (n : nat) (structures : list structure) :
  forallb (fun f => Nat.eqb (length f) n)
          (map (fun s => map frac_coords (sites s)) structures) = true <->
  frames_have n structures.
Proof.
  unfold frames_have. rewrite forallb_forall, Forall_forall. split.
  - intros H s Hs. specialize (H _ (in_map _ _ _ Hs)).
    apply Nat.eqb_eq in H. now rewrite length_map in H.
  - intros H f Hf. apply in_map_iff in Hf. destruct Hf as (s & <- & Hs).
    apply Nat.eqb_eq. rewrite length_map. auto.
Qed.

(** The function returns exactly for a non-empty list of frames that all
    have the number of sites of the first; it then returns the first frame
    and an array with one row per site and one entry per frame.  Without
    frames it raises [IndexError], with frames of different sizes the
    [ValueError] of [np.concatenate]. *)
Theorem get_structure_and_disp_outcome (structures : list structure) :
  match get_structure_and_disp structures with
  | inr (s0, disp) =>
      exists rest, structures = s0 :: rest /\
                   frames_have (length (sites s0)) structures /\
                   has_shape (length (sites s0)) (length structures) disp
  | inl e =>
      (structures = [] /\ e = IndexError) \/
      (exists s0 rest,
          structures = s0 :: rest /\
          ~ frames_have (length (sites s0)) structures /\
          exists msg, e = ValueError msg)
  end.
Proof.
  destruct structures as [|s0 rest]; [left; auto|].
  destruct (forallb (fun f => Nat.eqb (length f) (length (sites s0)))
                    (map (fun s => map frac_coords (sites s)) (s0 :: rest)))
    eqn:E.
  - apply frames_have_forallb in E.
    destruct (get_structure_and_disp_inr s0 rest _ E) as (disp & -> & Hshape).
    exists rest. auto.
  - assert (Hnot : ~ frames_have (length (sites s0)) (s0 :: rest))
      by (rewrite <- frames_have_forallb, E; discriminate).
    unfold get_structure_and_disp, frac_disp, wrapped_deltas,
      concatenate_axis1.
    cbn [map forallb] in *. rewrite length_map in *.
    rewrite Nat.eqb_refl in *. cbn [andb] in *. rewrite E. cbn [bind raise].
    right. exists s0, rest. eauto.
Qed.

(** ** [get_disps]: which intervals are accepted, and what comes out *)

Lemma mapM_length {A B} (f : A -> result B) (l : list A) (ys : list B) :
  mapM f l = inr ys -> length ys = length l.
Proof.
  revert ys. induction l as [|x r IH]; intros ys; cbn [mapM].
  - intros H. injection H as <-. reflexivity.
  - destruct (f x) as [e|y]; [discriminate|]. cbn [bind].
    destruct (mapM f r) as [e|ys']; [discriminate|]. cbn [bind ret].
    intros H. injection H as <-. cbn [length]. now rewrite (IH ys').
Qed.

Lemma mapM_returns {A B} (f : A -> result B) (l : list A) :
  (forall x, In x l -> returns (f x)) -> returns (mapM f l).
Proof.
  induction l as [|x r IH]; intros H; cbn [mapM]; [apply returns_inr|].
  destruct (H x (or_introl eq_refl)) as [y ->]. cbn [bind].
  destruct IH as [ys ->]; [intros z Hz; apply H; now right|].
  apply returns_inr.
Qed.

(** For a non-zero interval, positive or negative, the two slices of line
    142 and 143 have the same number of frames. *)
Lemma slices_same_length {A} (row : list A) (t : Z) :
  t <> 0 -> length (slice_from t row) = length (slice_to (- t) row).
Proof.
  intros Ht. unfold slice_from, slice_to, slice_bound.
  rewrite length_skipn, length_firstn.
  destruct (Z.ltb_spec t 0); destruct (Z.ltb_spec (- t) 0); lia.
Qed.

Lemma subtract_axis1_returns (a b : list (vec3 val)) :
  length a = length b \/ length a = 1%nat \/ length b = 1%nat ->
  returns (subtract_axis1 a b).
Proof.
  intros H. unfold subtract_axis1.
  destruct (Nat.eqb_spec (length a) (length b)) as [|Hne];
    [apply returns_inr|].
  destruct H as [H | [H | H]]; [contradiction| |].
  - destruct a as [|x [|y a]]; try discriminate. apply returns_inr.
  - destruct b as [|x [|y b]]; try discriminate.
    destruct a as [|u [|v a]]; apply returns_inr.
Qed.

Section GetDispsOutcome.
Variable self : parser.
Variable dc : list (list (vec3 val)).
Variables n nsteps : nat.

Hypothesis dc_shape : has_shape n nsteps dc.
Hypothesis some_site : (0 < n)%nat.
Hypothesis indices_in_dc : Forall (fun a => (a < n)%nat) (indices self).

Lemma get_disps_step_returns (t : Z) :
  t <> 0 \/ (nsteps <= 1)%nat -> returns (get_disps_step self dc t).
Proof.
  intros Ht. unfold get_disps_step.
  destruct (mapM_returns
              (fun row => subtract_axis1 (slice_from t row)
                                         (slice_to (- t) row)) dc)
    as [disp Hdisp].
  { intros row Hrow. apply subtract_axis1_returns.
    destruct Ht as [Ht | Hns]; [left; now apply slices_same_length|].
    destruct dc_shape as [_ Hrows]. rewrite Forall_forall in Hrows.
    specialize (Hrows row Hrow).
    destruct (Z.eq_dec t 0) as [-> | Hne];
      [|left; now apply slices_same_length].
    unfold slice_from, slice_to, slice_bound.
    cbn [Z.ltb Z.compare Z.opp Z.to_nat]. rewrite Nat.min_0_l.
    cbn [skipn firstn length]. lia. }
  rewrite Hdisp. cbn [bind].
  pose proof (mapM_length _ _ _ Hdisp) as Hlen.
  destruct dc_shape as [Hn _].
  rewrite (take_rows_ok _ (indices self) [])
    by (now rewrite length_map, Hlen, Hn).
  cbn [bind].
  rewrite (take_rows_ok _ (indices self) [])
    by (now rewrite !length_map, Hlen, Hn).
  cbn [bind].
  rewrite average_axis1_inr by (rewrite !length_map, Hlen, Hn; exact some_site).
  cbn [bind].
  rewrite (take_rows_ok (A:=val) _ (indices self) None)
    by (now rewrite !length_map, Hlen, Hn).
  apply returns_inr.
Qed.

(** On an array with at least one site and for mobile indices inside it,
    one iteration of the loop of [get_disps] raises exactly for the interval
    0 on a run of two or more frames, and then with the broadcasting
    [ValueError] of [np.subtract]; every other interval, negative ones and
    ones beyond the run included, is processed. *)
Theorem get_disps_step_raises_iff (t : Z) :
  (raises (get_disps_step self dc t) <-> t = 0 /\ (2 <= nsteps)%nat) /\
  (t = 0 -> (2 <= nsteps)%nat ->
   get_disps_step self dc t = inl broadcast_error).
Proof.
  assert (Hzero : t = 0 -> (2 <= nsteps)%nat ->
                  get_disps_step self dc t = inl broadcast_error).
  { intros -> Hns.
    exact (get_disps_step_zero_interval self dc n nsteps dc_shape some_site Hns). }
  split; [|exact Hzero]. split.
  - intros Hr. destruct (Z.eq_dec t 0) as [Ht | Ht];
      [destruct (le_lt_dec 2 nsteps) as [Hns | Hns]; [auto|]|].
    + destruct (get_disps_step_returns t) as [r Hret]; [right; lia|].
      rewrite Hret in Hr. now apply not_raises_inr in Hr.
    + destruct (get_disps_step_returns t) as [r Hret]; [now left|].
      rewrite Hret in Hr. now apply not_raises_inr in Hr.
  - intros [Ht Hns]. rewrite (Hzero Ht Hns). apply raises_inl.
Qed.
End GetDispsOutcome.

Lemma get_disps_step_raises_iff_witness :
  has_shape 1 3 walk_corrected /\ (0 < 1)%nat /\
  Forall (fun a => (a < 1)%nat) (indices (mkParser 2 50 [0%nat])) /\
  get_disps_step (mkParser 2 50 [0%nat]) walk_corrected 0
  = inl broadcast_error.
Proof.
  assert (Hs : has_shape 1 3 walk_corrected)
    by (split; [reflexivity | repeat constructor]).
  assert (Hn : (0 < 1)%nat) by lia.
  assert (Hi : Forall (fun a => (a < 1)%nat) (indices (mkParser 2 50 [0%nat])))
    by (repeat constructor).
  repeat (split; [assumption|]).
  apply (get_disps_step_raises_iff (mkParser 2 50 [0%nat]) walk_corrected 1 3
           Hs Hn Hi 0); [reflexivity | lia].
Defined.

Lemma wrap_int64_small (z : Z) :
  - 2 ^ 63 <= z < 2 ^ 63 -> wrap_int64 z = z.
Proof. intros H. unfold wrap_int64. rewrite Z.mod_small; lia. Qed.

Lemma nth_error_map_some {A B} (f : A -> B) (l : list A) (i : nat) (a : A) :
  nth_error l i = Some a -> nth_error (map f l) i = Some (f a).
Proof.
  revert i. induction l as [|x r IH]; intros [|i]; cbn; try discriminate.
  - intros H. injection H as ->. reflexivity.
  - apply IH.
Qed.

(** Whatever [get_disps] returns is in lockstep with the intervals it was
    given: [delta_t], [msd] and the two stores have one entry per interval,
    and the entry of [delta_t] is the interval times the time step times
    the sampling frequency wherever the two products stay within the int64
    range (beyond it numpy wraps). *)
Theorem get_disps_lockstep (self : parser) (timesteps : list Z)
        (dc : list (list (vec3 val))) (r : disps) :
  get_disps self timesteps dc = inr r ->
  length (delta_t r) = length timesteps /\
  length (msd r) = length timesteps /\
  length (sq_disp_store r) = length timesteps /\
  length (disp_store r) = length timesteps /\
  forall i t,
    nth_error timesteps i = Some t ->
    - 2 ^ 63 <= t * time_step self < 2 ^ 63 ->
    - 2 ^ 63 <= t * time_step self * step_skip self < 2 ^ 63 ->
    nth_error (delta_t r) i = Some (t * time_step self * step_skip self).
Proof.
  unfold get_disps.
  destruct (mapM (get_disps_step self dc) timesteps) as [e|rs] eqn:E;
    [discriminate|].
  cbn [bind ret]. intros H. injection H as <-.
  apply mapM_length in E.
  cbn [delta_t msd sq_disp_store disp_store]. rewrite !length_map.
  repeat (split; [auto|]).
  intros i t Hi H1 H2.
  rewrite (nth_error_map_some _ timesteps i t Hi).
  now rewrite (wrap_int64_small _ H1), (wrap_int64_small _ H2).
Qed.

Lemma get_disps_lockstep_witness :
  exists r,
    get_disps (mkParser 2 50 [0%nat]) [1; 2] walk_corrected = inr r /\
    length (msd r) = 2%nat /\
    nth_error (delta_t r) 1 = Some (2 * 2 * 50).
Proof.
  eexists. split; [vm_compute; reflexivity|].
  destruct (get_disps_lockstep (mkParser 2 50 [0%nat]) [1; 2] walk_corrected _
              eq_refl) as (_ & Hm & _ & _ & Hd).
  split; [exact Hm|].
  apply (Hd 1%nat 2 eq_refl); cbn; lia.
Defined.

(** Beyond the int64 range the products wrap without an exception. *)
Example delta_t_wraps :
  exists r,
    get_disps (mkParser (2 ^ 40) (2 ^ 30) [0%nat]) [1; 2] walk_corrected
    = inr r /\
    delta_t r = [0; 0].
Proof. eexists. split; vm_compute; reflexivity. Qed.

(** ** Drift correction removes a rigid translation *)

Lemma qsum_ext {A} (f g : A -> Q) (l : list A) :
  (forall i, In i l -> (f i == g i)%Q) ->
  (qsum (map f l) == qsum (map g l))%Q.
Proof.
  induction l as [|i r IH]; intros H; [reflexivity|].
  cbn [map qsum fold_right]. fold (qsum (map f r)). fold (qsum (map g r)).
  rewrite (H i (or_introl eq_refl)), IH by (intros j Hj; apply H; now right).
  reflexivity.
Qed.

Lemma axis_v3map (p : forall A, vec3 A -> A) :
  is_axis p -> forall A B (g : A -> B) u, p B (v3map g u) = g (p A u).
Proof. intros [-> | [-> | ->]]; reflexivity. Qed.

Lemma axis_v3map2 (p : forall A, vec3 A -> A) :
  is_axis p ->
  forall A B C (g : A -> B -> C) u v, p C (v3map2 g u v) = g (p A u) (p B v).
Proof. intros [-> | [-> | ->]]; reflexivity. Qed.

Lemma axis_q3eq (p : forall A, vec3 A -> A) :
  is_axis p -> forall u v, q3eq u v -> (p Q u == p Q v)%Q.
Proof. intros [-> | [-> | ->]] u v (H0 & H1 & H2); assumption. Qed.

Section CorrectedEntry.
Variable self : parser.
Variable st : structure.
Variable disp : list (list (vec3 Q)).
Variable specie : string.
Variables n nsteps : nat.

Hypothesis disp_shape : has_shape n nsteps disp.
Hypothesis some_site : (0 < n)%nat.
Hypothesis some_frame : (0 < nsteps)%nat.
Hypothesis sites_in_disp : (length (sites st) <= n)%nat.
Hypothesis some_framework : framework_of specie st <> [].

(** One component of one corrected entry: the displacement minus the
    framework sum over the framework count. *)
Lemma corrected_entry_component
      (p : forall A, vec3 A -> A) (i t : nat)
      (self' : parser) (dc : list (list (vec3 val))) :
  is_axis p -> (i < n)%nat -> (t < nsteps)%nat ->
  correct_for_drift self st disp specie = inr (self', dc) ->
  p val (nth t (nth i dc []) nan3)
  = Some (p Q (nth t (nth i disp []) qzero3)
          - qsum (map (fun j => p Q (nth t (nth j disp []) qzero3))
                      (framework_of specie st))
            / qcount (framework_of specie st))%Q.
Proof.
  intros Hp Hi Ht Hc.
  destruct (correct_for_drift_inr self st disp specie n nsteps
              disp_shape some_site some_frame sites_in_disp)
    as (drift & Hdrift & Hlen & Hret).
  rewrite Hret in Hc. injection Hc as _ <-.
  destruct (average_axis0_inr nsteps
              (map (fun j => nth j (inject disp) []) (framework_of specie st))
              some_frame) as (drift' & Hdrift' & _ & Hat).
  rewrite Hdrift in Hdrift'. injection Hdrift' as <-.
  rewrite (sub_axis0_entry n nsteps), (inject_entry n nsteps)
    by auto using inject_shape.
  rewrite (axis_v3map2 p Hp), (axis_v3map p Hp).
  assert (Hm : p val (nth t drift nan3)
               = mean (map (fun row => p val (nth t row nan3))
                           (map (fun j => nth j (inject disp) [])
                                (framework_of specie st))))
    by (rewrite (Hat t Ht); destruct Hp as [-> | [-> | ->]]; reflexivity).
  rewrite Hm.
  rewrite (framework_mean_component st disp specie n nsteps disp_shape
             some_site some_frame sites_in_disp p t (axis_v3map p Hp) Ht
             some_framework).
  reflexivity.
Qed.
End CorrectedEntry.

(** Drift correction removes a rigid translation: two displacement arrays
    that differ, at every frame, by one vector added to every site have the
    same corrected array. *)
Theorem correct_for_drift_translation_invariant
        (self : parser) (st : structure) (specie : string) (n nsteps : nat)
        (disp disp' : list (list (vec3 Q))) (shift : nat -> vec3 Q) :
  has_shape n nsteps disp -> has_shape n nsteps disp' ->
  (0 < n)%nat -> (0 < nsteps)%nat -> (length (sites st) <= n)%nat ->
  framework_of specie st <> [] ->
  (forall i t, (i < n)%nat -> (t < nsteps)%nat ->
     q3eq (nth t (nth i disp' []) qzero3)
          (q3add (nth t (nth i disp []) qzero3) (shift t))) ->
  exists s dc s' dc',
    correct_for_drift self st disp specie = inr (s, dc) /\
    correct_for_drift self st disp' specie = inr (s', dc') /\
    forall i t, (i < n)%nat -> (t < nsteps)%nat ->
      v3_val_eq (nth t (nth i dc []) nan3) (nth t (nth i dc' []) nan3).
Proof.
  intros Hs Hs' Hn Hns Hl Hfw Hshift.
  destruct (correct_for_drift_inr self st disp specie n nsteps Hs Hn Hns Hl)
    as (drift & _ & _ & Hc).
  destruct (correct_for_drift_inr self st disp' specie n nsteps Hs' Hn Hns Hl)
    as (drift' & _ & _ & Hc').
  do 4 eexists. split; [exact Hc|]. split; [exact Hc'|].
  intros i t Hi Ht.
  assert (Hcomp : forall p : forall A, vec3 A -> A, is_axis p ->
    val_eq (p val (nth t (nth i (sub_axis0 (inject disp) drift) []) nan3))
           (p val (nth t (nth i (sub_axis0 (inject disp') drift') []) nan3))).
  { intros p Hp.
    rewrite (corrected_entry_component self st disp specie n nsteps
               Hs Hn Hns Hl Hfw p i t _ _ Hp Hi Ht Hc).
    rewrite (corrected_entry_component self st disp' specie n nsteps
               Hs' Hn Hns Hl Hfw p i t _ _ Hp Hi Ht Hc').
    cbn [val_eq].
    set (fw := framework_of specie st) in *.
    set (x := fun j => p Q (nth t (nth j disp []) qzero3)).
    set (x' := fun j => p Q (nth t (nth j disp' []) qzero3)).
    set (c := p Q (shift t)).
    assert (Hx : forall j, (j < n)%nat -> (x' j == x j - - c)%Q).
    { intros j Hj. unfold x', x, c.
      rewrite (axis_q3eq p Hp _ _ (Hshift j t Hj Ht)).
      unfold q3add. rewrite (axis_v3map2 p Hp). ring. }
    assert (Hsum : (qsum (map x' fw) == qsum (map x fw) - qcount fw * - c)%Q).
    { rewrite <- qsum_shift. apply qsum_ext. intros j Hj. apply Hx.
      pose proof (framework_in_disp st specie n nsteps Hn Hns Hl) as Hb.
      rewrite Forall_forall in Hb. now apply Hb. }
    change (x i - qsum (map x fw) / qcount fw
            == x' i - qsum (map x' fw) / qcount fw)%Q.
    rewrite Hsum, (Hx i Hi).
    pose proof (qcount_pos fw Hfw) as Hpos.
    field. intros H0. rewrite H0 in Hpos. now apply Qlt_irrefl in Hpos. }
  split; [|split].
  - apply (Hcomp (@c0)). now left.
  - apply (Hcomp (@c1)). right. now left.
  - apply (Hcomp (@c2)). right. now right.
Qed.

Lemma correct_for_drift_translation_invariant_witness :
  exists s dc s' dc',
    correct_for_drift (mkParser 2 50 []) drifting_structure drifting_disp "Li"
    = inr (s, dc) /\
    correct_for_drift (mkParser 2 50 []) drifting_structure
                      drifting_disp_shifted "Li" = inr (s', dc') /\
    forall i t, (i < 3)%nat -> (t < 2)%nat ->
      v3_val_eq (nth t (nth i dc []) nan3) (nth t (nth i dc' []) nan3).
Proof.
  assert (Hs : has_shape 3 2 drifting_disp)
    by (split; [reflexivity | repeat constructor]).
  assert (Hs' : has_shape 3 2 drifting_disp_shifted)
    by (split; [reflexivity | repeat constructor]).
  assert (Hf : framework_of "Li" drifting_structure <> []) by discriminate.
  assert (Hl : (length (sites drifting_structure) <= 3)%nat) by (simpl; lia).
  apply (correct_for_drift_translation_invariant
           (mkParser 2 50 []) drifting_structure "Li" 3 2
           drifting_disp drifting_disp_shifted (fun _ => V3 (1 # 2) 0 0)%Q
           Hs Hs' ltac:(lia) ltac:(lia) Hl Hf).
  intros i t Hi Ht.
  destruct i as [|[|[|i]]]; try lia;
    destruct t as [|[|t]]; try lia; repeat split.
Defined.

(** ** Sign of the mean-squared displacement *)

Lemma all_Some (P : Q -> Prop) (l : list val) :
  Forall (fun v => exists q, v = Some q /\ P q) l ->
  exists qs, l = map (@Some Q) qs /\ Forall P qs.
Proof.
  induction 1 as [|v r (q & -> & Hq) _ (qs & -> & Hqs)].
  - exists []. split; [reflexivity | constructor].
  - exists (q :: qs). split; [reflexivity | now constructor].
Qed.

Lemma qsum_nonneg (qs : list Q) : Forall (Qle 0) qs -> (0 <= qsum qs)%Q.
Proof.
  induction 1 as [|q r Hq _ IH]; [discriminate|].
  cbn [qsum fold_right]. fold (qsum r). lra.
Qed.

Lemma qsum_zero (qs : list Q) :
  Forall (fun q => q == 0)%Q qs -> (qsum qs == 0)%Q.
Proof.
  induction 1 as [|q r Hq _ IH]; [reflexivity|].
  cbn [qsum fold_right]. fold (qsum r). rewrite Hq, IH. reflexivity.
Qed.

Lemma mean_nonneg (l : list val) :
  l <> [] -> Forall (fun v => exists q, v = Some q /\ (0 <= q)%Q) l ->
  exists q, mean l = Some q /\ (0 <= q)%Q.
Proof.
  intros Hne Hall. destruct (all_Some _ l Hall) as (qs & -> & Hqs).
  assert (Hqne : qs <> []) by (destruct qs; [contradiction | discriminate]).
  rewrite mean_Some by assumption. eexists. split; [reflexivity|].
  apply Qle_shift_div_l; [now apply qcount_pos|].
  rewrite Qmult_0_l. now apply qsum_nonneg.
Qed.

Lemma mean_zero (l : list val) :
  l <> [] -> Forall is_zero l -> is_zero (mean l).
Proof.
  intros Hne Hall. destruct (all_Some _ l Hall) as (qs & -> & Hqs).
  assert (Hqne : qs <> []) by (destruct qs; [contradiction | discriminate]).
  rewrite mean_Some by assumption. eexists. split; [reflexivity|].
  rewrite (qsum_zero qs Hqs).
  pose proof (qcount_pos qs Hqne) as Hpos.
  field. intros H0. rewrite H0 in Hpos. now apply Qlt_irrefl in Hpos.
Qed.

Lemma square_nonneg (a : Q) : (0 <= a * a)%Q.
Proof.
  destruct (Qlt_le_dec a 0) as [Hneg | Hpos].
  - setoid_replace (a * a)%Q with ((- a) * (- a))%Q by ring.
    apply Qmult_le_0_compat; lra.
  - now apply Qmult_le_0_compat.
Qed.

Lemma sq_norm_nonneg (u v : vec3 val) :
  finite3 u -> finite3 v ->
  exists q, v3sum (sq3 (v3map2 vsub u v)) = Some q /\ (0 <= q)%Q.
Proof.
  intros (x & y & z & ->) (x' & y' & z' & ->).
  eexists. split; [reflexivity|].
  pose proof (square_nonneg (x - x')). pose proof (square_nonneg (y - y')).
  pose proof (square_nonneg (z - z')). lra.
Qed.

Lemma sq_norm_self (u : vec3 val) :
  finite3 u -> is_zero (v3sum (sq3 (v3map2 vsub u u))).
Proof.
  intros (x & y & z & ->). eexists. split; [reflexivity|]. ring.
Qed.

Lemma map_not_nil {A B} (f : A -> B) (l : list A) : l <> [] -> map f l <> [].
Proof. destruct l; [contradiction | discriminate]. Qed.

Section MsdSign.
Variable self : parser.
Variable dc : list (list (vec3 val)).
Variables n nsteps : nat.
Variable dt : Z.

Hypothesis dc_shape : has_shape n nsteps dc.
Hypothesis dc_finite : finite_array dc.
Hypothesis some_mobile : indices self <> [].
Hypothesis indices_in_dc : Forall (fun a => (a < n)%nat) (indices self).
Hypothesis dt_range : 0 < dt < Z.of_nat nsteps.

Lemma finite_entry (a f : nat) :
  (a < n)%nat -> (f < nsteps)%nat -> finite3 (nth f (nth a dc []) nan3).
Proof.
  intros Ha Hf. destruct dc_shape as [Hn Hrows].
  unfold finite_array in dc_finite. rewrite Forall_forall in dc_finite, Hrows.
  assert (Hin : In (nth a dc []) dc) by (apply nth_In; lia).
  specialize (dc_finite _ Hin). rewrite Forall_forall in dc_finite.
  apply dc_finite, nth_In. rewrite (Hrows _ Hin). exact Hf.
Qed.

Lemma origins_not_nil : origins nsteps (Z.to_nat dt) <> [].
Proof.
  unfold origins. destruct (nsteps - Z.to_nat dt)%nat eqn:E; [lia|].
  discriminate.
Qed.

Lemma some_site_of_mobile : (0 < n)%nat.
Proof.
  destruct (indices self) as [|a r]; [contradiction|].
  inversion indices_in_dc; subst. lia.
Qed.

(** Without [nan] in the corrected array, with at least one mobile site and
    an interval inside the run, every stored squared displacement and the
    mean-squared displacement of the interval are finite and not negative. *)
Theorem msd_finite_nonnegative :
  exists m sq d,
    get_disps_step self dc dt = inr (m, sq, d) /\
    (exists q, m = Some q /\ (0 <= q)%Q) /\
    Forall (Forall (fun v => exists q, v = Some q /\ (0 <= q)%Q)) sq.
Proof.
  rewrite (get_disps_step_inr self dc n nsteps dc_shape some_site_of_mobile
             indices_in_dc dt dt_range).
  do 3 eexists. split; [reflexivity|].
  assert (Hsq : forall a, In a (indices self) ->
            Forall (fun v => exists q, v = Some q /\ (0 <= q)%Q)
                   (map (fun f => sq_displacement dc a f (Z.to_nat dt))
                        (origins nsteps (Z.to_nat dt)))).
  { intros a Ha. rewrite Forall_forall in indices_in_dc.
    specialize (indices_in_dc a Ha).
    apply Forall_map, Forall_forall. intros f Hf. apply in_seq in Hf.
    apply sq_norm_nonneg; apply finite_entry; lia. }
  split.
  - unfold mean_sq_displacement.
    apply mean_nonneg; [now apply map_not_nil|].
    apply Forall_map, Forall_forall. intros a Ha.
    apply mean_nonneg; [apply map_not_nil, origins_not_nil | now apply Hsq].
  - apply Forall_map, Forall_forall. intros a Ha. now apply Hsq.
Qed.

(** If no mobile site moves (its corrected displacement is the same at
    every frame), the mean-squared displacement of the interval is zero. *)
Theorem msd_of_stationary_sites :
  (forall a f g, In a (indices self) -> (f < nsteps)%nat -> (g < nsteps)%nat ->
     nth f (nth a dc []) nan3 = nth g (nth a dc []) nan3) ->
  exists m sq d,
    get_disps_step self dc dt = inr (m, sq, d) /\ is_zero m.
Proof.
  intros Hstill.
  rewrite (get_disps_step_inr self dc n nsteps dc_shape some_site_of_mobile
             indices_in_dc dt dt_range).
  do 3 eexists. split; [reflexivity|].
  unfold mean_sq_displacement.
  apply mean_zero; [now apply map_not_nil|].
  apply Forall_map, Forall_forall. intros a Ha.
  apply mean_zero; [apply map_not_nil, origins_not_nil|].
  apply Forall_map, Forall_forall. intros f Hf. apply in_seq in Hf.
  unfold sq_displacement.
  rewrite (Hstill a (f + Z.to_nat dt)%nat f Ha) by lia.
  apply sq_norm_self. rewrite Forall_forall in indices_in_dc.
  apply finite_entry; [now apply indices_in_dc | lia].
Qed.
End MsdSign.

Lemma msd_finite_nonnegative_witness :
  has_shape 1 3 walk_corrected /\ finite_array walk_corrected /\
  indices (mkParser 2 50 [0%nat]) <> [] /\
  Forall (fun a => (a < 1)%nat) (indices (mkParser 2 50 [0%nat])) /\
  0 < 1 < Z.of_nat 3 /\
  exists m sq d,
    get_disps_step (mkParser 2 50 [0%nat]) walk_corrected 1 = inr (m, sq, d) /\
    (exists q, m = Some q /\ (0 <= q)%Q) /\
    Forall (Forall (fun v => exists q, v = Some q /\ (0 <= q)%Q)) sq.
Proof.
  assert (Hs : has_shape 1 3 walk_corrected)
    by (split; [reflexivity | repeat constructor]).
  assert (Hf : finite_array walk_corrected)
    by (repeat constructor; do 3 eexists; reflexivity).
  assert (Hne : indices (mkParser 2 50 [0%nat]) <> []) by discriminate.
  assert (Hi : Forall (fun a => (a < 1)%nat) (indices (mkParser 2 50 [0%nat])))
    by (repeat constructor).
  assert (Hd : 0 < 1 < Z.of_nat 3) by (simpl; lia).
  repeat (split; [assumption|]).
  exact (msd_finite_nonnegative (mkParser 2 50 [0%nat]) walk_corrected 1 3 1
           Hs Hf Hne Hi Hd).
Defined.

Lemma msd_of_stationary_sites_witness :
  exists m sq d,
    get_disps_step (mkParser 2 50 [0%nat]) still_corrected 1 = inr (m, sq, d) /\
    is_zero m.
Proof.
  assert (Hs : has_shape 1 3 still_corrected)
    by (split; [reflexivity | repeat constructor]).
  assert (Hf : finite_array still_corrected)
    by (repeat constructor; do 3 eexists; reflexivity).
  assert (Hne : indices (mkParser 2 50 [0%nat]) <> []) by discriminate.
  assert (Hi : Forall (fun a => (a < 1)%nat) (indices (mkParser 2 50 [0%nat])))
    by (repeat constructor).
  assert (Hd : 0 < 1 < Z.of_nat 3) by (simpl; lia).
  apply (msd_of_stationary_sites (mkParser 2 50 [0%nat]) still_corrected 1 3 1
           Hs Hf Hne Hi Hd).
  intros a f g [<- | []] Hlf Hlg.
  destruct f as [|[|[|f]]]; try lia; destruct g as [|[|[|g]]]; try lia;
    reflexivity.
Defined.

(** ** The constructor as a whole *)

Section ConstructionOutcome.
Variable structures : list structure.
Variable specie : string.
Variables tstep sskip min_obs : Z.
Variable n : nat.
Variable s0 : structure.
Variable rest : list structure.

Hypothesis some_site : (0 < n)%nat.
Hypothesis same_sites : frames_have n structures.
Hypothesis first_frame : structures = s0 :: rest.

Let nsteps : nat := length structures.
Let mobile : list nat := mobile_of specie s0.
Let self1 : parser := mkParser tstep sskip mobile.
Let min_dt : Z := Z.quot 1000 (sskip * tstep).
Let max_dt : Z :=
  Z.min (Z.of_nat (length mobile) * Z.of_nat nsteps / min_obs)
        (Z.of_nat nsteps).

(** The first two stages return, and the constructor is the interval
    sampler followed by [get_disps] on the corrected array. *)
Lemma init_stages :
  exists disp dc,
    get_structure_and_disp structures = inr (s0, disp) /\
    correct_for_drift (mkParser tstep sskip []) s0 disp specie
    = inr (self1, dc) /\
    has_shape n nsteps dc /\
    init structures specie tstep sskip min_obs
    = (timesteps <- smoothed_timesteps self1 (Z.of_nat nsteps) min_obs ;;
       r <- get_disps self1 timesteps dc ;;
       ret (self1, r)).
Proof.
  pose proof same_sites as Hf. subst nsteps. rewrite first_frame in Hf |- *.
  destruct (get_structure_and_disp_inr s0 rest n Hf) as (disp & Hd & Hshape).
  assert (Hn0 : (length (sites s0) <= n)%nat) by (inversion Hf; subst; lia).
  destruct (correct_for_drift_inr (mkParser tstep sskip []) s0 disp specie n
              (S (length rest)) Hshape some_site ltac:(lia) Hn0)
    as (drift & _ & Hlen & Hc).
  cbn [app time_step step_skip indices] in Hc. fold mobile self1 in Hc.
  pose proof (sub_axis0_shape n (S (length rest)) (inject disp) drift
                (inject_shape _ _ _ Hshape) Hlen) as Hdc.
  exists disp, (sub_axis0 (inject disp) drift).
  split; [exact Hd|]. split; [exact Hc|]. split; [exact Hdc|].
  unfold init. rewrite Hd. cbn [bind fst snd]. rewrite Hc. cbn [bind].
  rewrite (shape1_of_shape n (S (length rest))) by assumption.
  reflexivity.
Qed.

Lemma mobile_in_array : Forall (fun a => (a < n)%nat) mobile.
Proof.
  pose proof same_sites as Hf. rewrite first_frame in Hf.
  assert (Hn0 : length (sites s0) = n) by now inversion Hf.
  rewrite <- Hn0. apply mobile_of_bound.
Qed.

(** For a time unit above 1000 and a run of two or more frames that passes
    the guard of the sampler, the constructor always fails: the sampled
    interval 0 makes [np.subtract] raise its broadcasting [ValueError]. *)
Theorem init_coarse_sampling_fails :
  1000 < sskip * tstep -> min_obs <> 0 -> (2 <= nsteps)%nat -> 0 < max_dt ->
  init structures specie tstep sskip min_obs = inl broadcast_error.
Proof.
  intros Hk Hm Hns Hmax.
  destruct init_stages as (disp & dc & _ & _ & Hshape & ->).
  rewrite smoothed_timesteps_defined by (cbn; lia).
  change (match (if min_dt >=? max_dt then inl not_enough_data
                 else inr (arange min_dt max_dt
                             (Z.max (Z.quot (max_dt - min_dt) 200) 1)))
          with
          | inl e => inl e
          | inr timesteps =>
              r <- get_disps self1 timesteps dc ;; ret (self1, r)
          end = inl broadcast_error).
  assert (Hz : min_dt = 0)
    by (apply (min_dt_zero (mkParser tstep sskip []) 0 0); cbn; lia).
  rewrite Hz. destruct (Z.geb_spec 0 max_dt); [lia|].
  destruct (arange_head 0 max_dt (Z.max (Z.quot (max_dt - 0) 200) 1)
                        ltac:(lia) Hmax) as [r ->].
  cbn [bind]. unfold get_disps. cbn [mapM].
  rewrite (get_disps_step_zero_interval self1 dc n nsteps Hshape some_site Hns).
  reflexivity.
Qed.
End ConstructionOutcome.

Lemma init_coarse_sampling_fails_witness :
  init two_frame_run "Li" 2 1000 1 = inl broadcast_error.
Proof.
  assert (Hf : frames_have 2 two_frame_run) by (repeat constructor).
  apply (init_coarse_sampling_fails two_frame_run "Li" 2 1000 1 2 _ _
           ltac:(lia) Hf eq_refl);
    [lia | lia | simpl; lia | vm_compute; reflexivity].
Defined.

(** ** Unwrapping: displacement of small steps *)

Lemma qsum_app (a b : list Q) : (qsum (a ++ b) == qsum a + qsum b)%Q.
Proof.
  unfold qsum. induction a as [|x r IH]; cbn [app fold_right].
  - ring.
  - rewrite IH. ring.
Qed.

(** A sum of successive differences telescopes. *)
Lemma qsum_telescope (g : nat -> Q) (t : nat) :
  (qsum (map (fun s => g (S s) - g s) (seq 0 t)) == g t - g 0%nat)%Q.
Proof.
  induction t as [|t IH]; [cbn; ring|].
  rewrite seq_S, map_app, qsum_app, IH. cbn. ring.
Qed.

Lemma axis_qzero3 (p : forall A, vec3 A -> A) : is_axis p -> p Q qzero3 = 0%Q.
Proof. intros [-> | [-> | ->]]; reflexivity. Qed.

Lemma qsum_seq_head (f : nat -> Q) (t : nat) :
  (qsum (map f (seq 0 (S t)))
   == f 0%nat + qsum (map (fun s => f (S s)) (seq 0 t)))%Q.
Proof.
  change (seq 0 (S t)) with (0%nat :: seq 1 t).
  rewrite <- (seq_shift t 0), map_cons, map_map. reflexivity.
Qed.

(** One component of [np.cumsum]: the entry [t] is the sum of the entries
    up to [t]. *)
Lemma cumsum_from_component (p : forall A, vec3 A -> A) (l : list (vec3 Q)) :
  is_axis p ->
  forall acc t, (t < length l)%nat ->
    (p Q (nth t (cumsum_from acc l) qzero3)
     == p Q acc + qsum (map (fun s => p Q (nth s l qzero3)) (seq 0 (S t))))%Q.
Proof.
  intros Hp. induction l as [|x r IH]; intros acc t Ht; [simpl in Ht; lia|].
  cbn [cumsum_from]. rewrite qsum_seq_head. cbn [nth]. destruct t as [|t].
  - unfold q3add. rewrite (axis_v3map2 p Hp). cbn. ring.
  - cbn [length] in Ht. rewrite IH by lia.
    unfold q3add. rewrite (axis_v3map2 p Hp). ring.
Qed.

Lemma cumsum_component (p : forall A, vec3 A -> A) (l : list (vec3 Q)) (t : nat) :
  is_axis p -> (t < length l)%nat ->
  (p Q (nth t (cumsum l) qzero3)
   == qsum (map (fun s => p Q (nth s l qzero3)) (seq 0 (S t))))%Q.
Proof.
  intros Hp Ht. destruct l as [|x r]; [simpl in Ht; lia|].
  cbn [cumsum]. rewrite qsum_seq_head. cbn [nth]. destruct t as [|t].
  - cbn. ring.
  - cbn [length] in Ht. rewrite (cumsum_from_component p r Hp) by lia.
    reflexivity.
Qed.

Lemma nth_tl {A} (l : list A) (t : nat) (d : A) : nth t (tl l) d = nth (S t) l d.
Proof. destruct l; [destruct t|]; reflexivity. Qed.

Lemma nth_removelast {A} (l : list A) (t : nat) (d : A) :
  (S t < length l)%nat -> nth t (removelast l) d = nth t l d.
Proof.
  revert t. induction l as [|x [|y r] IH]; intros t Ht; cbn [length] in Ht;
    try lia.
  change (removelast (x :: y :: r)) with (x :: removelast (y :: r)).
  destruct t as [|t]; [reflexivity|]. cbn [nth]. apply IH. cbn [length]. lia.
Qed.

Lemma diff_axis1_entry (row : list (vec3 Q)) (t : nat) :
  (S t < length row)%nat ->
  nth t (diff_axis1 row) qzero3
  = q3sub (nth (S t) row qzero3) (nth t row qzero3).
Proof.
  intros Ht. unfold diff_axis1.
  rewrite (nth_map_combine _ _ _ t qzero3 qzero3).
  - cbn [fst snd]. now rewrite nth_tl, nth_removelast.
  - rewrite removelast_length_pred. destruct row; reflexivity.
  - destruct row; cbn [tl length] in *; lia.
Qed.

(** The rows that [frac_disp] accumulates: site [i] through the frames, the
    first frame twice. *)
Lemma frac_disp_rows (structures : list structure)
      (f_disp : list (list (vec3 Q))) (latt : list mat3) :
  frac_disp structures = inr (f_disp, latt) ->
  forall i, (i < length f_disp)%nat ->
    nth i f_disp []
    = cumsum (map (v3map wrap)
                  (diff_axis1 (position structures i 0
                               :: map (position structures i)
                                      (seq 0 (length structures))))).
Proof.
  unfold frac_disp, wrapped_deltas.
  destruct structures as [|s0 rest]; [discriminate|].
  cbn [map]. unfold concatenate_axis1.
  match goal with |- context [forallb ?f ?l] => destruct (forallb f l) end;
    [|discriminate].
  cbn [bind ret fst snd]. intros H. injection H as <- _. intros i Hi.
  rewrite !length_map, length_seq in Hi.
  set (d := mkStructure [] (cubic 0)).
  rewrite !map_map.
  rewrite (nth_map_in _ (seq 0 _) i 0%nat [])
    by (rewrite length_seq, length_map; exact Hi).
  rewrite seq_nth by (rewrite length_map; exact Hi). cbn [Nat.add].
  do 3 f_equal. cbn [map length seq]. do 2 f_equal.
  rewrite <- (seq_shift (length rest) 0), !map_map.
  rewrite (list_by_index rest d) at 1. rewrite map_map.
  apply map_ext. intros s. reflexivity.
Qed.

(** In exact arithmetic (the fractional coordinates taken as rationals): as
    long as no component of a site moves by more than half a cell from one
    frame to the next, the unwrapped fractional displacement at frame [t]
    is the position at frame [t] minus the position at frame 0. *)
Theorem frac_disp_small_steps
        (structures : list structure) (f_disp : list (list (vec3 Q)))
        (latt : list mat3) (p : forall A, vec3 A -> A) (i t : nat) :
  is_axis p ->
  frac_disp structures = inr (f_disp, latt) ->
  (i < length f_disp)%nat -> (t < length structures)%nat ->
  (forall s, (s < t)%nat ->
     - (1 # 2) <= p Q (position structures i (S s))
                  - p Q (position structures i s) <= 1 # 2)%Q ->
  (p Q (nth t (nth i f_disp []) qzero3)
   == p Q (position structures i t) - p Q (position structures i 0))%Q.
Proof.
  intros Hp Hf Hi Ht Hsmall.
  rewrite (frac_disp_rows structures f_disp latt Hf i Hi).
  set (row := position structures i 0
              :: map (position structures i) (seq 0 (length structures))).
  assert (Hlen : length row = S (length structures))
    by (subst row; cbn [length]; now rewrite length_map, length_seq).
  assert (Hrow : forall s, (s < length structures)%nat ->
                           nth (S s) row qzero3 = position structures i s).
  { intros s Hs. subst row. cbn [nth].
    rewrite (nth_map_in _ (seq 0 _) s 0%nat) by now rewrite length_seq.
    now rewrite seq_nth. }
  set (g := fun s => match s with
                     | O => p Q (position structures i 0)
                     | S s' => p Q (position structures i s')
                     end).
  rewrite cumsum_component
    by (assumption || (rewrite length_map, diff_axis1_length, Hlen; exact Ht)).
  rewrite (qsum_ext _ (fun s => g (S s) - g s)%Q).
  - rewrite (qsum_telescope g (S t)). subst g. cbn beta iota.
    reflexivity.
  - intros s Hs. apply in_seq in Hs.
    rewrite (nth_map_in _ (diff_axis1 row) s qzero3 qzero3)
      by (rewrite diff_axis1_length, Hlen; cbn [pred]; lia).
    rewrite (axis_v3map p Hp), diff_axis1_entry by lia.
    unfold q3sub. rewrite (axis_v3map2 p Hp).
    rewrite Hrow by lia. subst g. cbn beta iota.
    destruct s as [|s].
    + assert (H0 : nth 0 row qzero3 = position structures i 0) by reflexivity.
      rewrite H0. apply wrap_of_small.
      split; apply Qle_minus_iff; ring_simplify; discriminate.
    + rewrite Hrow by lia. apply wrap_of_small. apply Hsmall. lia.
Qed.

Lemma frac_disp_small_steps_witness :
  exists f_disp latt,
    frac_disp breathing_run = inr (f_disp, latt) /\
    (c0 (nth 2 (nth 0 f_disp []) qzero3)
     == c0 (position breathing_run 0 2) - c0 (position breathing_run 0 0))%Q.
Proof.
  do 2 eexists. split; [vm_compute; reflexivity|].
  apply (frac_disp_small_steps breathing_run _ _ (@c0) 0 2
           (or_introl eq_refl) eq_refl); [simpl; lia | simpl; lia|].
  intros s Hs. destruct s as [|[|s]]; try lia; split; discriminate.
Defined.

(** In exact arithmetic (the fractional coordinates taken as rationals):
    whatever the steps, unwrapping recovers the position up to whole cells;
    the unwrapped fractional displacement at frame [t] differs from the
    position at frame [t] minus the position at frame 0 by an integer. *)
Theorem frac_disp_whole_cells
        (structures : list structure) (f_disp : list (list (vec3 Q)))
        (latt : list mat3) (p : forall A, vec3 A -> A) (i t : nat) :
  is_axis p ->
  frac_disp structures = inr (f_disp, latt) ->
  (i < length f_disp)%nat -> (t < length structures)%nat ->
  exists k : Z,
    (p Q (nth t (nth i f_disp []) qzero3)
     == p Q (position structures i t) - p Q (position structures i 0)
        - inject_Z k)%Q.
Proof.
  intros Hp Hf Hi Ht.
  rewrite (frac_disp_rows structures f_disp latt Hf i Hi).
  set (row := position structures i 0
              :: map (position structures i) (seq 0 (length structures))).
  assert (Hlen : length row = S (length structures))
    by (subst row; cbn [length]; now rewrite length_map, length_seq).
  assert (Hrow : forall s, (s < length structures)%nat ->
                           nth (S s) row qzero3 = position structures i s).
  { intros s Hs. subst row. cbn [nth].
    rewrite (nth_map_in _ (seq 0 _) s 0%nat) by now rewrite length_seq.
    now rewrite seq_nth. }
  set (g := fun s => p Q (nth s row qzero3)).
  set (z := fun s => round_half_even (g (S s) - g s)).
  exists (fold_right Z.add 0%Z (map z (seq 0 (S t)))).
  rewrite cumsum_component
    by (assumption || (rewrite length_map, diff_axis1_length, Hlen; exact Ht)).
  rewrite (qsum_ext _ (fun s => g (S s) - g s - inject_Z (z s))%Q).
  - assert (Hsplit : forall l,
      (qsum (map (fun s => g (S s) - g s - inject_Z (z s)) l)
       == qsum (map (fun s => g (S s) - g s) l)
          - inject_Z (fold_right Z.add 0%Z (map z l)))%Q).
    { induction l as [|s r IH]; [cbn; ring|].
      cbn [map qsum fold_right].
      fold (qsum (map (fun s => g (S s) - g s - inject_Z (z s))%Q r)).
      fold (qsum (map (fun s => (g (S s) - g s)%Q) r)).
      rewrite IH, inject_Z_plus. ring. }
    rewrite Hsplit, (qsum_telescope g (S t)). subst g. cbn beta.
    rewrite Hrow by assumption. reflexivity.
  - intros s Hs. apply in_seq in Hs.
    rewrite (nth_map_in _ (diff_axis1 row) s qzero3 qzero3)
      by (rewrite diff_axis1_length, Hlen; cbn [pred]; lia).
    rewrite (axis_v3map p Hp), diff_axis1_entry by lia.
    unfold q3sub. rewrite (axis_v3map2 p Hp). reflexivity.
Qed.

Lemma frac_disp_whole_cells_witness :
  exists f_disp latt,
    frac_disp half_step_run = inr (f_disp, latt) /\
    exists k : Z,
      (c0 (nth 1 (nth 0 f_disp []) qzero3)
       == c0 (position half_step_run 0 1) - c0 (position half_step_run 0 0)
          - inject_Z k)%Q.
Proof.
  do 2 eexists. split; [vm_compute; reflexivity|].
  apply (frac_disp_whole_cells half_step_run _ _ (@c0) 0 1
           (or_introl eq_refl) eq_refl); simpl; lia.
Defined.

Lemma dot_zero (d : vec3 Q) (m : mat3) :
  q3eq d qzero3 -> q3eq (dot d m) qzero3.
Proof.
  intros (H0 & H1 & H2). cbn [qzero3 c0 c1 c2] in *.
  unfold q3eq, dot. cbn [c0 c1 c2 qzero3].
  rewrite H0, H1, H2. repeat split; ring.
Qed.

(** The displacement is measured from the first frame: at frame 0 it is
    zero for every site, whatever the trajectory. *)
Theorem disp_zero_at_first_frame
        (structures : list structure) (s0 : structure)
        (disp : list (list (vec3 Q))) (i : nat) :
  get_structure_and_disp structures = inr (s0, disp) ->
  (i < length disp)%nat ->
  q3eq (nth 0 (nth i disp []) qzero3) qzero3.
Proof.
  unfold get_structure_and_disp.
  destruct structures as [|s rest] eqn:Es; [discriminate|]. rewrite <- Es.
  destruct (frac_disp structures) as [e|[f_disp latt]] eqn:E; [discriminate|].
  cbn [bind ret]. intros H. injection H as _ <-. rewrite length_map.
  intros Hi.
  destruct (frac_disp_inr _ _ _ E) as [Hl [_ Hrows]].
  assert (Hpos : (0 < length structures)%nat) by (rewrite Es; cbn; lia).
  assert (Hrow : length (nth i f_disp []) = length structures)
    by (rewrite Forall_forall in Hrows; apply Hrows, nth_In, Hi).
  rewrite (nth_map_in _ f_disp i [] []) by assumption.
  rewrite (nth_map_combine _ _ _ 0 qzero3 (lattice s))
    by (rewrite ?Hl, ?length_map, Hrow; lia).
  cbn [fst snd]. apply dot_zero.
  rewrite (frac_disp_rows structures f_disp latt E i Hi).
  destruct (length structures) as [|T] eqn:ET; [lia|].
  cbn [seq map diff_axis1 tl removelast combine fst snd cumsum nth].
  assert (Hw : forall x : Q, (wrap (x - x) == 0)%Q).
  { intros x. rewrite wrap_of_small; [ring|].
    split; apply Qle_minus_iff; ring_simplify; discriminate. }
  unfold q3eq, q3sub. cbn [v3map v3map2 c0 c1 c2 qzero3].
  repeat split; apply Hw.
Qed.

Lemma disp_zero_at_first_frame_witness :
  exists s0 disp,
    get_structure_and_disp breathing_run = inr (s0, disp) /\
    q3eq (nth 0 (nth 0 disp []) qzero3) qzero3.
Proof.
  do 2 eexists. split; [vm_compute; reflexivity|].
  apply (disp_zero_at_first_frame breathing_run _ _ 0 eq_refl). simpl. lia.
Defined.

(** ** Drift correction and [nan] *)

(** With at least one framework site the corrected array holds no [nan]:
    together with the all-mobile case, [nan] appears exactly when the
    framework is empty. *)
Theorem correct_for_drift_finite
        (self : parser) (st : structure) (disp : list (list (vec3 Q)))
        (specie : string) (n nsteps : nat) :
  has_shape n nsteps disp -> (0 < n)%nat -> (0 < nsteps)%nat ->
  (length (sites st) <= n)%nat ->
  framework_of specie st <> [] ->
  exists self' dc,
    correct_for_drift self st disp specie = inr (self', dc) /\
    has_shape n nsteps dc /\
    finite_array dc.
Proof.
  intros Hs Hn Hns Hl Hfw.
  destruct (correct_for_drift_inr self st disp specie n nsteps Hs Hn Hns Hl)
    as (drift & _ & Hlen & Hc).
  pose proof (sub_axis0_shape n nsteps (inject disp) drift
                (inject_shape _ _ _ Hs) Hlen) as Hdc.
  do 2 eexists. split; [exact Hc|]. split; [exact Hdc|].
  unfold finite_array. apply Forall_nth. intros i d Hi.
  destruct Hdc as [Hdn Hrows]. rewrite Hdn in Hi.
  rewrite (nth_indep _ d [])
    by (rewrite Hdn; exact Hi).
  apply Forall_nth. intros t v Ht.
  assert (Hrow : length (nth i (sub_axis0 (inject disp) drift) []) = nsteps)
    by (rewrite Forall_forall in Hrows; apply Hrows, nth_In; lia).
  rewrite Hrow in Ht.
  rewrite (nth_indep _ v nan3) by (rewrite Hrow; exact Ht).
  assert (Hcomp : forall p : forall A, vec3 A -> A, is_axis p ->
            exists q, p val (nth t (nth i (sub_axis0 (inject disp) drift) [])
                                nan3) = Some q).
  { intros p Hp. eexists.
    exact (corrected_entry_component self st disp specie n nsteps
             Hs Hn Hns Hl Hfw p i t _ _ Hp Hi Ht Hc). }
  destruct (Hcomp (@c0) (or_introl eq_refl)) as [x Hx].
  destruct (Hcomp (@c1) (or_intror (or_introl eq_refl))) as [y Hy].
  destruct (Hcomp (@c2) (or_intror (or_intror eq_refl))) as [z Hz].
  exists x, y, z.
  destruct (nth t (nth i (sub_axis0 (inject disp) drift) []) nan3)
    as [a b c]. cbn [c0 c1 c2] in *. now subst.
Qed.

Lemma correct_for_drift_finite_witness :
  exists self' dc,
    correct_for_drift (mkParser 2 50 []) drifting_structure drifting_disp "Li"
    = inr (self', dc) /\
    has_shape 3 2 dc /\
    finite_array dc.
Proof.
  assert (Hs : has_shape 3 2 drifting_disp)
    by (split; [reflexivity | repeat constructor]).
  assert (Hf : framework_of "Li" drifting_structure <> []) by discriminate.
  assert (Hl : (length (sites drifting_structure) <= 3)%nat) by (simpl; lia).
  exact (correct_for_drift_finite (mkParser 2 50 []) drifting_structure
           drifting_disp "Li" 3 2 Hs ltac:(lia) ltac:(lia) Hl Hf).
Defined.

(** ** The wrapped deltas, entry by entry *)

(** The rows that [wrapped_deltas] wraps: site [i] through the frames, the
    first frame twice. *)
Lemma wrapped_deltas_rows (structures : list structure)
      (d : list (list (vec3 Q))) (latt : list mat3) :
  wrapped_deltas structures = inr (d, latt) ->
  forall i, (i < length d)%nat ->
    nth i d []
    = map (v3map wrap)
          (diff_axis1 (position structures i 0
                       :: map (position structures i)
                              (seq 0 (length structures)))).
Proof.
  unfold wrapped_deltas.
  destruct structures as [|s0 rest]; [discriminate|].
  cbn [map]. unfold concatenate_axis1.
  match goal with |- context [forallb ?f ?l] => destruct (forallb f l) end;
    [|discriminate].
  cbn [bind ret]. intros H. injection H as <- _. intros i Hi.
  rewrite !length_map, length_seq in Hi.
  set (d := mkStructure [] (cubic 0)).
  rewrite !map_map.
  rewrite (nth_map_in _ (seq 0 _) i 0%nat [])
    by (rewrite length_seq, length_map; exact Hi).
  rewrite seq_nth by (rewrite length_map; exact Hi). cbn [Nat.add].
  do 2 f_equal. cbn [map length seq]. do 2 f_equal.
  rewrite <- (seq_shift (length rest) 0), !map_map.
  rewrite (list_by_index rest d) at 1. rewrite map_map.
  apply map_ext. intros s. reflexivity.
Qed.

Section WrapHalf.
Local Open Scope Q_scope.

(** The wrapped value is 1/2 exactly for an even integer plus one half. *)
Lemma wrap_half_even_plus_half (d : Q) :
  wrap d == 1 # 2 <->
  exists z : Z, Z.even z = true /\ d == inject_Z z + (1 # 2).
Proof.
  rewrite wrap_half_iff. split.
  - intros [Hr Hev]. exists (Qfloor d). split; [exact Hev | lra].
  - intros (z & Hev & Hd).
    assert (Hf : Qfloor d = z)
      by (apply Qfloor_unique; [|rewrite inject_Z_plus;
                                  change (inject_Z 1) with 1]; lra).
    rewrite Hf. split; [lra | exact Hev].
Qed.
End WrapHalf.

(** C7, as the code has it.  Every wrapped fractional delta lies in the
    closed interval from -1/2 to 1/2.  The entry of site [i] at frame [t]
    is the wrapping of the coordinate at frame [t] minus the coordinate at
    the frame before (frame 0 for [t = 0]), and it is 1/2 exactly when that
    difference is an even integer plus one half. *)
Theorem wrapped_deltas_closed_interval
        (structures : list structure) (d : list (list (vec3 Q)))
        (latt : list mat3) :
  wrapped_deltas structures = inr (d, latt) ->
  Forall (Forall (v3all (fun x => (- (1 # 2) <= x <= 1 # 2)%Q))) d /\
  forall (p : forall A, vec3 A -> A) (i t : nat),
    is_axis p -> (i < length d)%nat -> (t < length structures)%nat ->
    let raw := (p Q (position structures i t)
                - p Q (position structures i (pred t)))%Q in
    p Q (nth t (nth i d []) qzero3) = wrap raw /\
    ((wrap raw == 1 # 2)%Q <->
     exists z : Z, Z.even z = true /\ (raw == inject_Z z + (1 # 2))%Q).
Proof.
  intros H. split.
  - revert H. unfold wrapped_deltas.
    destruct (map (fun s => map frac_coords (sites s)) structures) as [|f0 cs];
      [discriminate|].
    destruct (map lattice structures) as [|l0 ls]; [discriminate|].
    destruct (concatenate_axis1 (f0 :: f0 :: cs)) as [e|arr]; [discriminate|].
    simpl. intros H. injection H as <- _.
    apply Forall_map_iff, Forall_forall. intros row _.
    apply Forall_map_iff, Forall_forall. intros v _.
    unfold v3all. simpl. repeat split; apply wrap_bounds.
  - intros p i t Hp Hi Ht raw. split; [|apply wrap_half_even_plus_half].
    rewrite (wrapped_deltas_rows structures d latt H i Hi).
    set (row := position structures i 0
                :: map (position structures i) (seq 0 (length structures))).
    assert (Hlen : length row = S (length structures))
      by (subst row; cbn [length]; now rewrite length_map, length_seq).
    assert (Hrow : forall s, (s < length structures)%nat ->
                             nth (S s) row qzero3 = position structures i s).
    { intros s Hs. subst row. cbn [nth].
      rewrite (nth_map_in _ (seq 0 _) s 0%nat) by now rewrite length_seq.
      now rewrite seq_nth. }
    rewrite (nth_map_in _ (diff_axis1 row) t qzero3 qzero3)
      by (rewrite diff_axis1_length, Hlen; cbn [pred]; lia).
    rewrite (axis_v3map p Hp), diff_axis1_entry by lia.
    unfold q3sub. rewrite (axis_v3map2 p Hp), Hrow by assumption.
    subst raw. destruct t as [|t]; [reflexivity|].
    rewrite Hrow by lia. reflexivity.
Qed.

Lemma wrapped_deltas_closed_interval_witness :
  exists d latt,
    wrapped_deltas half_step_run = inr (d, latt) /\
    Forall (Forall (v3all (fun x => (- (1 # 2) <= x <= 1 # 2)%Q))) d /\
    c0 (nth 1 (nth 0 d []) qzero3)
    = wrap (c0 (position half_step_run 0 1) - c0 (position half_step_run 0 0)).
Proof.
  eexists. eexists. split; [vm_compute; reflexivity|].
  destruct (wrapped_deltas_closed_interval half_step_run _ _ eq_refl)
    as [Hall Hent].
  split; [exact Hall|].
  apply (Hent (@c0) 0%nat 1%nat); [now left | simpl; lia | simpl; lia].
Defined.

(** ** The framework after drift correction *)

(** C2.  With at least one framework site the method returns an array of
    the same shape.  At every frame and on every axis each corrected entry
    is finite and is the displacement minus the framework sum over the
    framework count, and the corrected entries of the framework sites sum
    to zero, so that their mean is zero. *)
Theorem drift_corrected_framework_mean_zero
        (self : parser) (st : structure) (disp : list (list (vec3 Q)))
        (specie : string) (n nsteps : nat) :
  has_shape n nsteps disp -> (0 < n)%nat -> (0 < nsteps)%nat ->
  (length (sites st) <= n)%nat ->
  framework_of specie st <> [] ->
  exists self' dc,
    correct_for_drift self st disp specie = inr (self', dc) /\
    has_shape n nsteps dc /\
    forall (p : forall A, vec3 A -> A) (t : nat),
      is_axis p -> (t < nsteps)%nat ->
      exists x : nat -> Q,
        (forall i, (i < n)%nat ->
           p val (nth t (nth i dc []) nan3) = Some (x i)) /\
        (forall i, (i < n)%nat ->
           x i == p Q (nth t (nth i disp []) qzero3)
                  - qsum (map (fun j => p Q (nth t (nth j disp []) qzero3))
                              (framework_of specie st))
                    / qcount (framework_of specie st))%Q /\
        (qsum (map x (framework_of specie st)) == 0)%Q /\
        (qsum (map x (framework_of specie st))
         / qcount (framework_of specie st) == 0)%Q.
Proof.
  intros Hs Hn Hns Hl Hfw.
  destruct (correct_for_drift_inr self st disp specie n nsteps Hs Hn Hns Hl)
    as (drift & _ & Hlen & Hc).
  pose proof (sub_axis0_shape n nsteps (inject disp) drift
                (inject_shape _ _ _ Hs) Hlen) as Hdc.
  do 2 eexists. split; [exact Hc|]. split; [exact Hdc|].
  intros p t Hp Ht.
  set (fw := framework_of specie st) in *.
  set (y := fun j => p Q (nth t (nth j disp []) qzero3)).
  exists (fun i => y i - qsum (map y fw) / qcount fw)%Q.
  assert (Hsum : (qsum (map (fun i => y i - qsum (map y fw) / qcount fw) fw)
                  == 0)%Q).
  { rewrite qsum_shift. pose proof (qcount_pos fw Hfw) as Hpos.
    field. intros H0. rewrite H0 in Hpos. now apply Qlt_irrefl in Hpos. }
  split; [|split; [|split]].
  - intros i Hi.
    exact (corrected_entry_component self st disp specie n nsteps
             Hs Hn Hns Hl Hfw p i t _ _ Hp Hi Ht Hc).
  - intros i Hi. reflexivity.
  - exact Hsum.
  - rewrite Hsum. pose proof (qcount_pos fw Hfw) as Hpos.
    field. intros H0. rewrite H0 in Hpos. now apply Qlt_irrefl in Hpos.
Qed.

Lemma drift_corrected_framework_mean_zero_witness :
  has_shape 3 2 drifting_disp /\
  (0 < 3)%nat /\ (0 < 2)%nat /\
  (length (sites drifting_structure) <= 3)%nat /\
  framework_of "Li" drifting_structure <> [] /\
  exists self' dc,
    correct_for_drift (mkParser 2 50 []) drifting_structure drifting_disp "Li"
    = inr (self', dc) /\
    has_shape 3 2 dc /\
    exists x : nat -> Q,
      (forall i, (i < 3)%nat -> c0 (nth 1 (nth i dc []) nan3) = Some (x i)) /\
      (qsum (map x (framework_of "Li" drifting_structure)) == 0)%Q.
Proof.
  assert (Hs : has_shape 3 2 drifting_disp)
    by (split; [reflexivity | repeat constructor]).
  assert (Hn : (0 < 3)%nat) by lia.
  assert (Ht : (0 < 2)%nat) by lia.
  assert (Hl : (length (sites drifting_structure) <= 3)%nat) by (simpl; lia).
  assert (Hf : framework_of "Li" drifting_structure <> []) by discriminate.
  repeat (split; [assumption|]).
  destruct (drift_corrected_framework_mean_zero
              (mkParser 2 50 []) drifting_structure drifting_disp "Li" 3 2
              Hs Hn Ht Hl Hf) as (self' & dc & Hc & Hshape & Hall).
  exists self', dc. split; [exact Hc|]. split; [exact Hshape|].
  destruct (Hall (@c0) 1%nat (or_introl eq_refl) ltac:(lia))
    as (x & Hx & _ & Hsum & _).
  exists x. split; [exact Hx | exact Hsum].
Defined.

(** The values behind the example: the two oxygens move by 1/10 and 3/10,
    their mean is 1/5, and the corrected entries at frame 1 are -1/10 for
    the lithium and -1/10 and 1/10 for the oxygens. *)
Example drifting_corrected_values :
  exists self' dc,
    correct_for_drift (mkParser 2 50 []) drifting_structure drifting_disp "Li"
    = inr (self', dc) /\
    Forall2 (fun row q => val_eq (c0 (nth 1 row nan3)) (Some q)) dc
            [- (1 # 10); - (1 # 10); 1 # 10]%Q.
Proof.
  do 2 eexists. split; [vm_compute; reflexivity|].
  repeat constructor.
Qed.

(** ** The mean-squared displacement in plain arithmetic *)

Lemma Forall2_map_self {A B} (R : A -> B -> Prop) (f : A -> B) (l : list A) :
  (forall a, In a l -> R a (f a)) -> Forall2 R l (map f l).
Proof.
  induction l as [|a r IH]; intros H; cbn [map]; constructor.
  - apply H. now left.
  - apply IH. intros b Hb. apply H. now right.
Qed.

Section MsdExact.
Variable self : parser.
Variable dc : list (list (vec3 val)).
Variables n nsteps : nat.
Variable X : nat -> nat -> vec3 Q.

Hypothesis dc_shape : has_shape n nsteps dc.
Hypothesis dc_entries :
  forall a f, (a < n)%nat -> (f < nsteps)%nat ->
              nth f (nth a dc []) nan3 = some3 (X a f).
Hypothesis some_mobile : indices self <> [].
Hypothesis indices_in_dc : Forall (fun a => (a < n)%nat) (indices self).

Lemma sq_displacement_exact (a f k : nat) :
  (a < n)%nat -> (f + k < nsteps)%nat ->
  sq_displacement dc a f k = Some (sq_dist (X a (f + k)) (X a f)).
Proof.
  intros Ha Hf. unfold sq_displacement.
  rewrite !dc_entries by lia. reflexivity.
Qed.

Lemma origin_mean_exact (a k : nat) :
  (a < n)%nat -> (0 < k < nsteps)%nat ->
  mean (map (fun f => sq_displacement dc a f k) (origins nsteps k))
  = Some (qmean (map (fun f => sq_dist (X a (f + k)) (X a f))
                     (seq 0 (nsteps - k)))).
Proof.
  intros Ha Hk. unfold origins.
  rewrite (map_ext_in _ (fun f => Some (sq_dist (X a (f + k)) (X a f)))).
  2:{ intros f Hf. apply in_seq in Hf. apply sq_displacement_exact; lia. }
  rewrite <- (map_map (fun f => sq_dist (X a (f + k)) (X a f)) (@Some Q)).
  rewrite mean_Some; [reflexivity|].
  destruct (nsteps - k)%nat eqn:E; [lia | discriminate].
Qed.

Lemma mean_sq_displacement_exact (k : nat) :
  (0 < k < nsteps)%nat ->
  mean_sq_displacement dc (indices self) nsteps k
  = Some (qmean (map (fun a =>
                        qmean (map (fun f => sq_dist (X a (f + k)) (X a f))
                                   (seq 0 (nsteps - k))))
                     (indices self))).
Proof.
  intros Hk. unfold mean_sq_displacement.
  rewrite (map_ext_in _
    (fun a => Some (qmean (map (fun f => sq_dist (X a (f + k)) (X a f))
                               (seq 0 (nsteps - k)))))).
  2:{ intros a Ha. rewrite Forall_forall in indices_in_dc.
      apply origin_mean_exact; auto. }
  rewrite <- (map_map
    (fun a => qmean (map (fun f => sq_dist (X a (f + k)) (X a f))
                         (seq 0 (nsteps - k)))) (@Some Q)).
  rewrite mean_Some; [reflexivity|].
  destruct (indices self); [contradiction | discriminate].
Qed.

Lemma some_site_of_indices : (0 < n)%nat.
Proof.
  destruct (indices self) as [|a r]; [contradiction|].
  inversion indices_in_dc; subst. lia.
Qed.

(** C6.  For a corrected array whose entries are the finite positions [X],
    at least one mobile site and intervals inside the run, [get_disps]
    returns.  The population stored for the interval [dt] has one row per
    mobile site with exactly [nsteps - dt] time origins, the entry of
    origin [f] being the squared differences of the three coordinates
    between frame [f + dt] and frame [f], added up; and [msd[i]] is the
    mean over the mobile sites of the mean over the origins of that
    quantity. *)
Theorem get_disps_msd (timesteps : list Z) :
  Forall (fun dt => 0 < dt < Z.of_nat nsteps) timesteps ->
  exists r,
    get_disps self timesteps dc = inr r /\
    Forall2
      (fun dt m =>
         m = Some (qmean
                     (map (fun a =>
                             qmean (map (fun f =>
                                           sq_dist (X a (f + Z.to_nat dt))
                                                   (X a f))
                                        (seq 0 (nsteps - Z.to_nat dt))))
                          (indices self))))
      timesteps (msd r) /\
    Forall2
      (fun dt pop =>
         Forall2
           (fun a row =>
              Z.of_nat (length row) = Z.of_nat nsteps - dt /\
              forall f, (f < length row)%nat ->
                nth f row None
                = Some (sq_dist (X a (f + Z.to_nat dt)) (X a f)))
           (indices self) pop)
      timesteps (sq_disp_store r).
Proof.
  intros Hts. unfold get_disps.
  rewrite (mapM_ok _ (fun dt =>
    (mean_sq_displacement dc (indices self) nsteps (Z.to_nat dt),
     map (fun a => map (fun f => sq_displacement dc a f (Z.to_nat dt))
                       (origins nsteps (Z.to_nat dt)))
         (indices self),
     map (fun a =>
            map v3sum
                (map (fun f => v3map2 vsub
                                 (nth (f + Z.to_nat dt) (nth a dc []) nan3)
                                 (nth f (nth a dc []) nan3))
                     (seq 0 (nsteps - Z.to_nat dt))))
         (indices self)))).
  2:{ intros dt Hin. rewrite Forall_forall in Hts.
      apply (get_disps_step_inr self dc n nsteps dc_shape
               some_site_of_indices indices_in_dc dt (Hts dt Hin)). }
  cbn [bind ret]. eexists. split; [reflexivity|]. cbn [msd sq_disp_store].
  rewrite !map_map. cbn [fst snd]. rewrite Forall_forall in Hts.
  split; apply Forall2_map_self; intros dt Hdt; specialize (Hts dt Hdt).
  - apply mean_sq_displacement_exact. lia.
  - apply Forall2_map_self. intros a Ha.
    rewrite Forall_forall in indices_in_dc. specialize (indices_in_dc a Ha).
    unfold origins. rewrite length_map, length_seq. split; [lia|].
    intros f Hf.
    rewrite (nth_map_in _ (seq 0 (nsteps - Z.to_nat dt)) f 0%nat)
      by (now rewrite length_seq).
    rewrite seq_nth by assumption. cbn [Nat.add].
    apply sq_displacement_exact; [assumption | lia].
Qed.
End MsdExact.

Lemma get_disps_msd_witness :
  exists r,
    get_disps (mkParser 2 50 [0%nat]) [1; 2] walk_corrected = inr r /\
    Forall2
      (fun dt m =>
         m = Some (qmean
                     (map (fun a =>
                             qmean (map (fun f =>
                                           sq_dist
                                             (walk_positions a (f + Z.to_nat dt))
                                             (walk_positions a f))
                                        (seq 0 (3 - Z.to_nat dt))))
                          [0%nat])))
      [1; 2] (msd r).
Proof.
  assert (Hs : has_shape 1 3 walk_corrected)
    by (split; [reflexivity | repeat constructor]).
  assert (He : forall a f, (a < 1)%nat -> (f < 3)%nat ->
                nth f (nth a walk_corrected []) nan3
                = some3 (walk_positions a f)).
  { intros a f Ha Hf. destruct a as [|a]; [|lia].
    destruct f as [|[|[|f]]]; try lia; reflexivity. }
  assert (Hne : indices (mkParser 2 50 [0%nat]) <> []) by discriminate.
  assert (Hi : Forall (fun a => (a < 1)%nat) (indices (mkParser 2 50 [0%nat])))
    by (repeat constructor).
  assert (Ht : Forall (fun dt => 0 < dt < Z.of_nat 3) [1; 2])
    by (repeat constructor; simpl; lia).
  destruct (get_disps_msd (mkParser 2 50 [0%nat]) walk_corrected 1 3
                          walk_positions Hs He Hne Hi [1; 2] Ht)
    as (r & Hr & Hm & _).
  exists r. split; [exact Hr | exact Hm].
Defined.

(** ** The constructor on a well-sampled run *)

Lemma factor_bound (a b : Z) : 0 < a * b <= 1000 -> -1000 <= b <= 1000.
Proof.
  intros H. destruct (Z.lt_trichotomy b 0) as [Hb | [Hb | Hb]].
  - assert (a < 0) by nia. nia.
  - subst b. rewrite Z.mul_0_r in H. lia.
  - assert (0 < a) by nia. nia.
Qed.

Lemma product_bound (t b N : Z) :
  0 < t < N -> -1000 <= b <= 1000 -> - (N * 1000) <= t * b <= N * 1000.
Proof.
  intros Ht Hb.
  assert (t * b <= t * 1000) by (apply Z.mul_le_mono_nonneg_l; lia).
  assert (t * -1000 <= t * b) by (apply Z.mul_le_mono_nonneg_l; lia).
  lia.
Qed.

Section ConstructionReturns.
Variable structures : list structure.
Variable specie : string.
Variables tstep sskip min_obs : Z.
Variable n : nat.
Variable s0 : structure.
Variable rest : list structure.

Hypothesis some_site : (0 < n)%nat.
Hypothesis same_sites : frames_have n structures.
Hypothesis first_frame : structures = s0 :: rest.

Let nsteps : nat := length structures.
Let mobile : list nat := mobile_of specie s0.
Let self1 : parser := mkParser tstep sskip mobile.
Let min_dt : Z := Z.quot 1000 (sskip * tstep).
Let max_dt : Z :=
  Z.min (Z.of_nat (length mobile) * Z.of_nat nsteps / min_obs)
        (Z.of_nat nsteps).

Lemma corrected_entries (disp : list (list (vec3 Q)))
      (dc : list (list (vec3 val))) (self self' : parser) :
  has_shape n nsteps disp -> (0 < nsteps)%nat ->
  framework_of specie s0 <> [] ->
  correct_for_drift self s0 disp specie = inr (self', dc) ->
  forall a f, (a < n)%nat -> (f < nsteps)%nat ->
    nth f (nth a dc []) nan3
    = some3 (corrected_position disp (framework_of specie s0) a f).
Proof.
  intros Hs Hns Hfw Hc a f Ha Hf.
  pose proof same_sites as Hsame. rewrite first_frame in Hsame.
  assert (Hn0 : (length (sites s0) <= n)%nat)
    by (inversion Hsame; subst; lia).
  pose proof (corrected_entry_component self s0 disp specie n nsteps
                Hs some_site Hns Hn0 Hfw) as Hcomp.
  pose proof (Hcomp (@c0) a f self' dc (or_introl eq_refl) Ha Hf Hc) as H0.
  pose proof (Hcomp (@c1) a f self' dc (or_intror (or_introl eq_refl))
                    Ha Hf Hc) as H1.
  pose proof (Hcomp (@c2) a f self' dc (or_intror (or_intror eq_refl))
                    Ha Hf Hc) as H2.
  destruct (nth f (nth a dc []) nan3) as [x y z]. cbn [c0 c1 c2] in *.
  subst. reflexivity.
Qed.

(** For a run of fewer than 2^52 frames with at least one framework site, a
    time unit from 1 to 1000 and enough data ([min_dt < max_dt]) the
    constructor returns.  The object holds the mobile sites of the first
    frame; [delta_t] is each sampled interval times the time step times the
    sampling frequency; and [msd] holds, for each sampled interval, the
    mean over the mobile sites of the mean over the time origins of the
    squared distance between the drift-corrected positions of frame
    [f + dt] and frame [f]. *)
Theorem init_returns_msd :
  0 < sskip * tstep <= 1000 -> min_obs <> 0 -> min_dt < max_dt ->
  framework_of specie s0 <> [] -> Z.of_nat nsteps < 2 ^ 52 ->
  exists disp timesteps r,
    get_structure_and_disp structures = inr (s0, disp) /\
    smoothed_timesteps self1 (Z.of_nat nsteps) min_obs = inr timesteps /\
    init structures specie tstep sskip min_obs = inr (self1, r) /\
    delta_t r = map (fun t => t * tstep * sskip) timesteps /\
    Forall2
      (fun dt m =>
         let X := corrected_position disp (framework_of specie s0) in
         m = Some (qmean
                     (map (fun a =>
                             qmean (map (fun f =>
                                           sq_dist (X a (f + Z.to_nat dt)%nat)
                                                   (X a f))
                                        (seq 0 (nsteps - Z.to_nat dt)%nat)))
                          mobile)))
      timesteps (msd r).
Proof.
  intros Hk Hm Hlt Hfw Hbig.
  destruct (init_stages structures specie tstep sskip min_obs n s0 rest
              some_site same_sites first_frame)
    as (disp & dc & Hd & Hc & Hshape & Hinit).
  fold nsteps mobile self1 in Hc, Hshape, Hinit.
  assert (Hdshape : has_shape n nsteps disp).
  { pose proof same_sites as Hf. rewrite first_frame in Hf.
    destruct (get_structure_and_disp_inr s0 rest n Hf) as (disp' & Hd' & Hs').
    rewrite first_frame in Hd. rewrite Hd in Hd'. injection Hd' as <-.
    subst nsteps. rewrite first_frame. exact Hs'. }
  assert (Hns : (0 < nsteps)%nat)
    by (subst nsteps; rewrite first_frame; cbn; lia).
  pose proof (corrected_entries disp dc _ _ Hdshape Hns Hfw Hc) as Hent.
  set (step := Z.max (Z.quot (max_dt - min_dt) 200) 1).
  assert (Hs : smoothed_timesteps self1 (Z.of_nat nsteps) min_obs
               = inr (arange min_dt max_dt step)).
  { rewrite smoothed_timesteps_defined by (cbn; lia).
    change ((if min_dt >=? max_dt then inl not_enough_data
             else inr (arange min_dt max_dt step))
            = inr (arange min_dt max_dt step)).
    destruct (Z.geb_spec min_dt max_dt); [lia | reflexivity]. }
  assert (Hpos : 0 < min_dt)
    by (apply (min_dt_pos (mkParser tstep sskip []) 0 0); cbn; lia).
  assert (Hin : forall t, In t (arange min_dt max_dt step) ->
                          0 < t < Z.of_nat nsteps).
  { intros t Ht. apply arange_In in Ht; [|subst step; lia].
    subst max_dt. lia. }
  assert (Hmob : indices self1 <> []).
  { subst self1. cbn [indices]. intros Hnil.
    subst max_dt. rewrite Hnil in Hlt. cbn [length] in Hlt.
    rewrite Z.mul_0_l, Z.div_0_l in Hlt by assumption. lia. }
  pose proof (mobile_in_array structures specie n s0 rest same_sites
                first_frame) as Hidx.
  exists disp, (arange min_dt max_dt step).
  rewrite Hinit, Hs. cbn [bind]. unfold get_disps.
  rewrite (mapM_ok _ (fun t =>
    (mean_sq_displacement dc mobile nsteps (Z.to_nat t),
     map (fun a => map (fun f => sq_displacement dc a f (Z.to_nat t))
                       (origins nsteps (Z.to_nat t))) mobile,
     map (fun a =>
            map v3sum
                (map (fun f => v3map2 vsub
                                 (nth (f + Z.to_nat t) (nth a dc []) nan3)
                                 (nth f (nth a dc []) nan3))
                     (seq 0 (nsteps - Z.to_nat t)))) mobile))).
  2:{ intros t Ht.
      apply (get_disps_step_inr self1 dc n nsteps Hshape some_site Hidx t
               (Hin t Ht)). }
  cbn [bind ret]. eexists. split; [exact Hd|].
  split; [reflexivity|]. split; [reflexivity|].
  cbn [delta_t msd]. rewrite !map_map. cbn [fst]. split.
  - apply map_ext_in. intros t Ht. specialize (Hin t Ht).
    change (time_step self1) with tstep. change (step_skip self1) with sskip.
    pose proof (factor_bound sskip tstep Hk) as Ht1.
    pose proof (product_bound t tstep (Z.of_nat nsteps) Hin Ht1) as Hb2.
    assert (Ht2 : - 2 ^ 63 <= t * tstep < 2 ^ 63) by lia.
    assert (Hk' : -1000 <= sskip * tstep <= 1000) by lia.
    pose proof (product_bound t (sskip * tstep) (Z.of_nat nsteps) Hin Hk')
      as Hb3.
    assert (Ht3 : - 2 ^ 63 <= t * tstep * sskip < 2 ^ 63)
      by (rewrite <- Z.mul_assoc, (Z.mul_comm tstep sskip); lia).
    now rewrite (wrap_int64_small _ Ht2), (wrap_int64_small _ Ht3).
  - apply Forall2_map_self. intros t Ht. specialize (Hin t Ht). cbn zeta.
    apply (mean_sq_displacement_exact self1 dc n nsteps
             (corrected_position disp (framework_of specie s0))
             Hent Hmob Hidx).
    lia.
Qed.
End ConstructionReturns.

Lemma init_returns_msd_witness :
  exists disp timesteps r,
    get_structure_and_disp resting_run = inr (resting_frame, disp) /\
    smoothed_timesteps (mkParser 2 50 [0%nat]) 12 1 = inr timesteps /\
    init resting_run "Li" 2 50 1 = inr (mkParser 2 50 [0%nat], r) /\
    delta_t r = map (fun t => t * 2 * 50) timesteps /\
    Forall2
      (fun dt m =>
         let X := corrected_position disp [1%nat] in
         m = Some (qmean
                     (map (fun a =>
                             qmean (map (fun f =>
                                           sq_dist (X a (f + Z.to_nat dt)%nat)
                                                   (X a f))
                                        (seq 0 (12 - Z.to_nat dt)%nat)))
                          [0%nat])))
      timesteps (msd r).
Proof.
  assert (Hf : frames_have 2 resting_run) by (repeat constructor).
  apply (init_returns_msd resting_run "Li" 2 50 1 2 resting_frame
           (repeat resting_frame 11) ltac:(lia) Hf eq_refl);
    [lia | lia | vm_compute; reflexivity | discriminate
     | vm_compute; reflexivity].
Defined.
